(** * AICommittee poll server: vote ingestion, aggregation and broadcast

    A shallow embedding of [server/server.js]: the [votes] table and its
    three prepared statements, the [POLLS] catalog, [aggregateResults],
    the [/api/vote] and [/api/reset] routes and [broadcast].

    JavaScript strings and SQLite TEXT values are modelled as [string]
    (a sequence of UTF-8 bytes).  Counters such as [rows.length] are
    modelled as [nat]. *)

From Stdlib Require Import List String Ascii ZArith Lia Bool Arith Permutation.
From Stdlib Require Import DecimalString.
Import ListNotations.

Local Open Scope string_scope.
Local Open Scope list_scope.

Set Implicit Arguments.

(** ** Plain JavaScript objects used as maps

    [counts = {}] and the [POLLS] literal are ordinary objects: their own
    properties are kept in creation order, reads fall back on
    [Object.prototype], and [Object.keys] / [Object.entries] list the
    array-index keys first, in ascending numeric order, and the other keys
    after them in creation order. *)
Module JsObject.

(** The own properties, oldest first.  Keys are unique in every object
    built from [empty] with [own_put]. *)
Definition t (V : Type) := list (string * V).

Definition empty {V : Type} : t V := [].

(** The names every plain object inherits from [Object.prototype]. *)
Definition prototype_keys : list string :=
  [ "constructor"; "__defineGetter__"; "__defineSetter__"; "hasOwnProperty";
    "__lookupGetter__"; "__lookupSetter__"; "isPrototypeOf";
    "propertyIsEnumerable"; "toString"; "valueOf"; "__proto__";
    "toLocaleString" ].

Definition inherited (k : string) : bool :=
  existsb (String.eqb k) prototype_keys.

(** What [o[k]] evaluates to. *)
Inductive lookup (V : Type) : Type :=
| Undefined                (* no such property: [undefined] *)
| Own (v : V)              (* an own property *)
| Inherited.               (* a member of [Object.prototype]: a function,
                              or the prototype object for [__proto__] *)
Arguments Undefined {V}.
Arguments Inherited {V}.

Fixpoint own_get {V : Type} (k : string) (o : t V) : option V :=
  match o with
  | [] => None
  | (k', v) :: rest => if String.eqb k k' then Some v else own_get k rest
  end.

Definition get {V : Type} (o : t V) (k : string) : lookup V :=
  match own_get k o with
  | Some v => Own v
  | None => if inherited k then Inherited else Undefined
  end.

(** Writing an own property: an existing key keeps its place, a new key
    goes last. *)
Fixpoint own_put {V : Type} (k : string) (v : V) (o : t V) : t V :=
  match o with
  | [] => [(k, v)]
  | (k', v') :: rest =>
      if String.eqb k k' then (k', v) :: rest else (k', v') :: own_put k v rest
  end.

(** [o[k] = v] for a primitive [v].  [__proto__] is an accessor of
    [Object.prototype] whose setter ignores primitives, so that write is
    lost; every other key becomes (or stays) an own property. *)
Definition set {V : Type} (o : t V) (k : string) (v : V) : t V :=
  if String.eqb k "__proto__" then o else own_put k v o.

(** An object literal [{ k1: v1, ..., kn: vn }]. *)
Definition literal {V : Type} (fields : list (string * V)) : t V :=
  fold_left (fun o kv => own_put (fst kv) (snd kv) o) fields empty.

(** *** Array-index keys

    A key is an array index when it is the canonical decimal spelling of
    an integer between 0 and 2^32 - 2. *)
Definition is_digit (c : ascii) : bool :=
  let n := N_of_ascii c in ((48 <=? n) && (n <=? 57))%N.

Definition digit_value (c : ascii) : N := (N_of_ascii c - 48)%N.

Fixpoint digits_value (acc : N) (s : string) : N :=
  match s with
  | EmptyString => acc
  | String c rest => digits_value (acc * 10 + digit_value c)%N rest
  end.

Fixpoint all_digits (s : string) : bool :=
  match s with
  | EmptyString => true
  | String c rest => is_digit c && all_digits rest
  end.

Definition array_index (k : string) : option N :=
  match k with
  | EmptyString => None
  | String c rest =>
      if all_digits k
         && (negb (Ascii.eqb c "0") || String.eqb rest "")
         && (String.length k <=? 10)%nat
      then
        let n := digits_value 0 k in
        if (n <=? 4294967294)%N then Some n else None
      else None
  end.

Definition is_index (k : string) : bool :=
  match array_index k with Some _ => true | None => false end.

Definition index_of (k : string) : N :=
  match array_index k with Some n => n | None => 0%N end.

(** Insertion sort of the index-keyed properties by numeric index. *)
Fixpoint insert_by_index {V : Type} (e : string * V) (l : t V) : t V :=
  match l with
  | [] => [e]
  | e' :: rest =>
      if (index_of (fst e) <=? index_of (fst e'))%N
      then e :: l
      else e' :: insert_by_index e rest
  end.

Fixpoint sort_by_index {V : Type} (l : t V) : t V :=
  match l with
  | [] => []
  | e :: rest => insert_by_index e (sort_by_index rest)
  end.

(** [Object.entries(o)] *)
Definition entries {V : Type} (o : t V) : list (string * V) :=
  sort_by_index (filter (fun e => is_index (fst e)) o)
    ++ filter (fun e => negb (is_index (fst e))) o.

(** [Object.keys(o)] *)
Definition keys {V : Type} (o : t V) : list string := map fst (entries o).

End JsObject.

Import JsObject.
Arguments Undefined {V}.
Arguments Inherited {V}.


(** ** JavaScript numbers, as far as the rating average needs them

    [parseInt] yields an integer-valued double, an infinity or [NaN];
    [sum += num] adds such values with one rounding; [sum / n] is the
    double nearest to the exact quotient; [toFixed(1)] prints the tenth
    nearest to that double.  Doubles are IEEE 754 binary64, rounded to
    nearest, ties to even. *)
Module JsNumber.

Local Open Scope Z_scope.

(** An integer-valued double ([Int z] with [z] representable), an
    infinity or [NaN]. *)
Inductive Number : Type :=
| Int (z : Z)
| PosInf
| NegInf
| NaN.

(** Round half to even of [num / den] for [0 <= num], [0 < den]. *)
Definition round_div (num den : Z) : Z :=
  let q := num / den in
  let r := num mod den in
  if (den <? 2 * r) || ((2 * r =? den) && Z.odd q) then q + 1 else q.

(** The double nearest to the integer [z].  Below 2^53 every integer is
    a double; above, 53 significant bits are kept. *)
Definition of_integer (z : Z) : Number :=
  let a := Z.abs z in
  if a <? 2 ^ 53 then Int z
  else
    let k := Z.log2 a - 52 in
    let v := round_div a (2 ^ k) * 2 ^ k in
    if 2 ^ 1024 <=? v then (if z <? 0 then NegInf else PosInf)
    else Int (Z.sgn z * v).

(** [a + b] *)
Definition add (a b : Number) : Number :=
  match a, b with
  | NaN, _ | _, NaN => NaN
  | PosInf, NegInf | NegInf, PosInf => NaN
  | PosInf, _ | _, PosInf => PosInf
  | NegInf, _ | _, NegInf => NegInf
  | Int x, Int y => of_integer (x + y)
  end.

Definition isNaN (a : Number) : bool :=
  match a with NaN => true | _ => false end.

(** *** parseInt *)

Definition bytes (l : list nat) : string :=
  fold_right (fun n s => String (ascii_of_nat n) s) EmptyString l.

(** WhiteSpace and LineTerminator code points, UTF-8 encoded. *)
Definition white_space : list string :=
  map bytes
    [ [9%nat]; [10%nat]; [11%nat]; [12%nat]; [13%nat]; [32%nat];
      [194; 160]%nat; [225; 154; 128]%nat;
      [226; 128; 128]%nat; [226; 128; 129]%nat; [226; 128; 130]%nat;
      [226; 128; 131]%nat; [226; 128; 132]%nat; [226; 128; 133]%nat;
      [226; 128; 134]%nat; [226; 128; 135]%nat; [226; 128; 136]%nat;
      [226; 128; 137]%nat; [226; 128; 138]%nat;
      [226; 128; 168]%nat; [226; 128; 169]%nat; [226; 128; 175]%nat;
      [226; 129; 159]%nat; [227; 128; 128]%nat; [239; 187; 191]%nat ].

Fixpoint strip_prefix (p s : string) : option string :=
  match p, s with
  | EmptyString, _ => Some s
  | String a p', String b s' =>
      if Ascii.eqb a b then strip_prefix p' s' else None
  | String _ _, EmptyString => None
  end.

Fixpoint strip_any (ps : list string) (s : string) : option string :=
  match ps with
  | [] => None
  | p :: rest =>
      match strip_prefix p s with
      | Some s' => Some s'
      | None => strip_any rest s
      end
  end.

Fixpoint trim_start_fuel (fuel : nat) (s : string) : string :=
  match fuel with
  | O => s
  | S fuel' =>
      match strip_any white_space s with
      | Some s' => trim_start_fuel fuel' s'
      | None => s
      end
  end.

Definition trim_start (s : string) : string :=
  trim_start_fuel (String.length s) s.

(** The value of [c] as a digit of the given radix (10 or 16). *)
Definition radix_digit (radix : Z) (c : ascii) : option Z :=
  let n := Z.of_N (N_of_ascii c) in
  let d :=
    if (48 <=? n) && (n <=? 57) then Some (n - 48)
    else if (97 <=? n) && (n <=? 122) then Some (n - 87)
    else if (65 <=? n) && (n <=? 90) then Some (n - 55)
    else None in
  match d with
  | Some v => if v <? radix then Some v else None
  | None => None
  end.

(** Reads the longest run of digits; [None] when there is none. *)
Fixpoint read_digits (radix : Z) (acc : option Z) (s : string) : option Z :=
  match s with
  | EmptyString => acc
  | String c rest =>
      match radix_digit radix c with
      | Some d =>
          read_digits radix
            (Some (match acc with Some a => a * radix + d | None => d end))
            rest
      | None => acc
      end
  end.

(** The mathematical integer [parseInt(s)] reads, before it becomes a
    double: blanks are skipped, a sign and a hexadecimal prefix are
    honoured, and the digits stop at the first character that is none.
    [None] when no digit is found. *)
Definition integer_prefix (s : string) : option Z :=
  let s0 := trim_start s in
  let '(negative, s1) :=
    match s0 with
    | String "-" rest => (true, rest)
    | String "+" rest => (false, rest)
    | _ => (false, s0)
    end in
  let '(radix, s2) :=
    match s1 with
    | String "0" (String "x" rest) => (16, rest)
    | String "0" (String "X" rest) => (16, rest)
    | _ => (10, s1)
    end in
  match read_digits radix None s2 with
  | None => None
  | Some v => Some (if negative then - v else v)
  end.

(** [parseInt(s)], radix left out. *)
Definition parseInt (s : string) : Number :=
  match integer_prefix s with
  | None => NaN
  | Some z => of_integer z
  end.

(** *** Division and toFixed(1) *)

(** A finite double [m * 2^e], an infinity or [NaN]. *)
Inductive Quotient : Type :=
| Dyadic (m e : Z)
| QPosInf
| QNegInf
| QNaN.

(** The double nearest to [s / n], for [0 < n]: an exponent [e] is
    chosen so that the significand has 53 bits (or [e] is the least
    exponent, -1074), and the significand is rounded. *)
Definition nearest_ratio (s n : Z) : Z * Z :=
  let a := Z.abs s in
  if a =? 0 then (0, 0)
  else
    let e0 := Z.log2 a - Z.log2 n - 53 in
    let scaled e := if 0 <=? e then (a, n * 2 ^ e) else (a * 2 ^ (- e), n) in
    let '(num0, den0) := scaled e0 in
    let e1 := if 2 ^ 53 <=? num0 / den0 then e0 + 1 else e0 in
    let e := Z.max e1 (-1074) in
    let '(num, den) := scaled e in
    (Z.sgn s * round_div num den, e).

(** [sum / n] for a positive count [n]. *)
Definition divide (sum : Number) (n : Z) : Quotient :=
  match sum with
  | Int s => let '(m, e) := nearest_ratio s n in Dyadic m e
  | PosInf => QPosInf
  | NegInf => QNegInf
  | NaN => QNaN
  end.

Definition decimal (n : Z) : string :=
  NilZero.string_of_uint (N.to_uint (Z.to_N n)).

(** Splits the last character off a non-empty string. *)
Fixpoint split_last (s : string) : string * string :=
  match s with
  | EmptyString => (EmptyString, EmptyString)
  | String c EmptyString => (EmptyString, String c EmptyString)
  | String c rest => let '(h, t) := split_last rest in (String c h, t)
  end.

(** The text of [x.toFixed(1)] when [|x| < 10^21]: [tenths] is the
    integer nearest to [10 * |x|] (the larger one on a tie). *)
Definition fixed1 (negative : bool) (tenths : Z) : string :=
  let digits := decimal tenths in
  let padded :=
    if (String.length digits <=? 1)%nat then ("0" ++ digits)%string
    else digits in
  let '(whole, frac) := split_last padded in
  ((if negative then "-" else "") ++ whole ++ "." ++ frac)%string.

Definition tenths_of (m e : Z) : Z :=
  let a := Z.abs m in
  if 0 <=? e then 10 * a * 2 ^ e
  else (20 * a + 2 ^ (- e)) / 2 ^ (- e + 1).

(** Number::toString for an integer-valued double [x >= 10^21]: the
    fewest digits that still denote [x], in exponent form. *)
Fixpoint digit_count_fuel (fuel : nat) (x : Z) : Z :=
  match fuel with
  | O => 0
  | S fuel' => if x <? 10 then 1 else 1 + digit_count_fuel fuel' (x / 10)
  end.

Definition digit_count (x : Z) : Z :=
  digit_count_fuel (S (Z.to_nat (Z.log2 x))) x.

Definition denotes (x : Z) (v : Z) : bool :=
  match of_integer v with
  | Int y => y =? x
  | _ => false
  end.

Fixpoint shortest_fuel (fuel : nat) (k : Z) (x len : Z) : Z * Z :=
  match fuel with
  | O => (x, 0)
  | S fuel' =>
      let p := len - k in
      let lo := x / 10 ^ p in
      let hi := lo + 1 in
      let ok_lo := denotes x (lo * 10 ^ p) in
      let ok_hi := denotes x (hi * 10 ^ p) in
      if ok_lo && ok_hi then
        (if x - lo * 10 ^ p <=? hi * 10 ^ p - x then (lo, p) else (hi, p))
      else if ok_lo then (lo, p)
      else if ok_hi then (hi, p)
      else shortest_fuel fuel' (k + 1) x len
  end.

Fixpoint strip_zeros_fuel (fuel : nat) (s p : Z) : Z * Z :=
  match fuel with
  | O => (s, p)
  | S fuel' =>
      if (s mod 10 =? 0) && negb (s =? 0)
      then strip_zeros_fuel fuel' (s / 10) (p + 1)
      else (s, p)
  end.

Definition exponent_form (negative : bool) (x : Z) : string :=
  let len := digit_count x in
  let '(s0, p0) := shortest_fuel 17 1 x len in
  let '(s, p) := strip_zeros_fuel 400 s0 p0 in
  let digits := decimal s in
  let expo := p + Z.of_nat (String.length digits) - 1 in
  let mantissa :=
    match digits with
    | String c EmptyString => digits
    | String c rest => String c ("." ++ rest)%string
    | EmptyString => digits
    end in
  ((if negative then "-" else "") ++ mantissa ++ "e+" ++ decimal expo)%string.

(** [q.toFixed(1)] *)
Definition toFixed1 (q : Quotient) : string :=
  match q with
  | QNaN => "NaN"
  | QPosInf => "Infinity"
  | QNegInf => "-Infinity"
  | Dyadic m e =>
      if (0 <=? e) && (10 ^ 21 <=? Z.abs m * 2 ^ e)
      then exponent_form (m <? 0) (Z.abs m * 2 ^ e)
      else fixed1 (m <? 0) (tenths_of m e)
  end.

End JsNumber.

Import JsNumber.



(** ** JSON values

    What [express.json()] hands to the routes and what [JSON.parse]
    returns.  A number carries its text as [String(x)] prints it. *)
#[warnings="-register-all"] Inductive json : Type :=
| JNull
| JBool (b : bool)
| JNum (shown : string)
| JStr (s : string)
| JArr (items : list json)
| JObj (fields : list (string * json)).

(** The two built-ins the server calls.  [JSON_parse] answers [None] where
    [JSON.parse] throws a SyntaxError. *)
Class JSON : Type := {
  JSON_parse : string -> option json;
  JSON_stringify : json -> string
}.

Fixpoint join_with (sep : string) (l : list string) : string :=
  match l with
  | [] => ""
  | [s] => s
  | s :: rest => s ++ sep ++ join_with sep rest
  end.

(** [String(j)], which is also the property key [counts[j]] uses: an array
    prints its elements joined by commas, [null] elements as nothing. *)
Fixpoint to_string (j : json) : string :=
  match j with
  | JNull => "null"
  | JBool true => "true"
  | JBool false => "false"
  | JNum shown => shown
  | JStr s => s
  | JArr items =>
      join_with ","
        (map (fun x => match x with JNull => "" | _ => to_string x end) items)
  | JObj _ => "[object Object]"
  end.

(** Truthiness, as [!value] tests it. *)
Definition truthy (j : json) : bool :=
  match j with
  | JNull => false
  | JBool b => b
  | JNum shown => negb (String.eqb shown "0")
  | JStr s => negb (String.eqb s "")
  | JArr _ | JObj _ => true
  end.

(** ** Poll configuration *)
Record Poll : Type := {
  question : string;
  type : string;
  options : list string
}.

Definition POLLS : JsObject.t Poll :=
  literal
    [ ("1", {| question := "Have you used AI for work in the past month?";
               type := "mc";
               options := ["Yes, regularly"; "Yes, a few times";
                           "No, but I'm curious"; "What's AI?"] |});
      ("2", {| question := "What GS/production task would you want AI to help with?";
               type := "open";
               options := [] |});
      ("3", {| question := "How confident are you in using AI for work?";
               type := "likert";
               options := ["1 — Not at all"; "2 — A little nervous";
                           "3 — Somewhat confident"; "4 — Pretty confident";
                           "5 — I'm already an AI pro"] |});
      ("4", {| question := "What AI tools have you heard of?";
               type := "multi";
               options := ["ChatGPT"; "Microsoft Copilot"; "Google Gemini";
                           "Claude"; "ElevenLabs"; "Midjourney / DALL-E";
                           "None of these"] |});
      ("5", {| question := "What's your biggest concern about using AI?";
               type := "open";
               options := [] |});
      ("6", {| question := "How many of you have clients that use AI?";
               type := "mc";
               options := ["Yes, several clients"; "Yes, a few";
                           "Not that I know of"; "I'm not sure"] |}) ].

(** ** Aggregate results for a poll *)

(** A stored count: a number, or what the arithmetic leaves behind when it
    meets an inherited member (a string such as the member's source text
    followed by 1, or [NaN]). *)
Inductive cell : Type :=
| Num (n : nat)
| NonNumeric.

(** An element of the [results] array: a raw text, or [{ label, count }]. *)
Inductive item : Type :=
| Raw (text : string)
| Tally (label : string) (count : cell).

Record AggregateResult : Type := {
  total : nat;
  results : list item;
  writeIns : option (list string);
  average : option string
}.

(** [poll.options.forEach(o => { counts[o] = 0; })] *)
Definition zero_counts (opts : list string) : JsObject.t cell :=
  fold_left (fun counts o => set counts o (Num 0)) opts empty.

(** [counts[k] = (counts[k] || 0) + 1] *)
Definition count_up (counts : JsObject.t cell) (k : string) : JsObject.t cell :=
  set counts k
    match get counts k with
    | Undefined => Num 1
    | Own (Num n) => Num (n + 1)
    | Own NonNumeric => NonNumeric
    | Inherited => NonNumeric
    end.

(** [counts[k]++] *)
Definition increment (counts : JsObject.t cell) (k : string) : JsObject.t cell :=
  set counts k
    match get counts k with
    | Own (Num n) => Num (n + 1)
    | _ => NonNumeric
    end.

(** [Object.entries(counts).map(([label, count]) => ({ label, count }))] *)
Definition tallies (counts : JsObject.t cell) : list item :=
  map (fun e => Tally (fst e) (snd e)) (entries counts).

(** The body of the [rows.forEach] of a rating-scale poll: [(sum, n)]. *)
Definition likert_step (acc : Number * nat) (v : string) : Number * nat :=
  let num := parseInt v in
  if isNaN num then acc else (add (fst acc) num, S (snd acc)).

Definition likert_average (rows : list string) : string :=
  let '(sum, n) := fold_left likert_step rows (Int 0, 0%nat) in
  if (0 <? n)%nat then toFixed1 (divide sum (Z.of_nat n)) else "0.0".

(** The body of the [rows.forEach] of a write-in poll:
    [(counts, writeIns)]. *)
Definition writein_step (opts : list string)
    (acc : JsObject.t cell * list string) (v : string)
    : JsObject.t cell * list string :=
  if existsb (String.eqb v) opts
  then (increment (fst acc) v, snd acc)
  else (increment (fst acc) "Other", snd acc ++ [v]).

Section Aggregation.

Context {json_runtime : JSON}.

(** The body of the [rows.forEach] of a multi-select poll.  A value that
    does not parse, or parses to something without [forEach], lands in
    the empty [catch]. *)
Definition multi_step (counts : JsObject.t cell) (v : string) : JsObject.t cell :=
  match JSON_parse v with
  | Some (JArr selected) => fold_left count_up (map to_string selected) counts
  | Some _ => counts
  | None => counts
  end.

(** [aggregateResults] from the point where [rows] and [poll] are known:
    [poll] is what [POLLS[pollId]] evaluated to, [rows] the values
    [getVotes.all(pollId)] returned. *)
Definition aggregate (poll : lookup Poll) (rows : list string) : AggregateResult :=
  match poll with
  | Undefined =>
      {| total := 0; results := []; writeIns := None; average := None |}
  | Inherited =>
      (* [poll.type] and [poll.options] are undefined *)
      {| total := List.length rows;
         results := tallies (fold_left count_up rows (zero_counts []));
         writeIns := None; average := None |}
  | Own p =>
      if String.eqb (type p) "open" then
        {| total := List.length rows;
           results := rev (map Raw rows);
           writeIns := None; average := None |}
      else if String.eqb (type p) "multi" then
        {| total := List.length rows;
           results := tallies (fold_left multi_step rows (zero_counts (options p)));
           writeIns := None; average := None |}
      else if String.eqb (type p) "mc-writein" then
        let '(counts, writeins) :=
          fold_left (writein_step (options p)) rows
            (set (zero_counts (options p)) "Other" (Num 0), []) in
        {| total := List.length rows;
           results := tallies counts;
           writeIns := Some (rev writeins); average := None |}
      else
        let results :=
          tallies (fold_left count_up rows (zero_counts (options p))) in
        if String.eqb (type p) "likert" then
          {| total := List.length rows; results := results;
             writeIns := None; average := Some (likert_average rows) |}
        else
          {| total := List.length rows; results := results;
             writeIns := None; average := None |}
  end.

End Aggregation.


(** ** SQLite setup: the [votes] table *)
Module Votes.

(** A row of [votes].  [created_at] is the clock reading that
    CURRENT_TIMESTAMP stored.  The [id] column is never read. *)
Record Row : Type := {
  poll_id : string;
  voter_id : string;
  value : string;
  created_at : nat
}.

(** The table, in rowid order.  UNIQUE(poll_id, voter_id) is the
    invariant [unique_keys] below. *)
Definition Table := list Row.

Definition has_key (p v : string) (r : Row) : bool :=
  String.eqb (poll_id r) p && String.eqb (voter_id r) v.

(** INSERT ... ON CONFLICT(poll_id, voter_id) DO UPDATE SET
    value = @value, created_at = CURRENT_TIMESTAMP *)
Fixpoint upsert (p v x : string) (now : nat) (t : Table) : Table :=
  match t with
  | [] => [ {| poll_id := p; voter_id := v; value := x; created_at := now |} ]
  | r :: rest =>
      if has_key p v r
      then {| poll_id := poll_id r; voter_id := voter_id r;
              value := x; created_at := now |} :: rest
      else r :: upsert p v x now rest
  end.

(** The rows WHERE poll_id = ? keeps. *)
Definition of_poll (p : string) (t : Table) : list Row :=
  filter (fun r => String.eqb (poll_id r) p) t.

Definition key (r : Row) : string * string := (poll_id r, voter_id r).

Definition unique_keys (t : Table) : Prop := NoDup (map key t).

End Votes.

Import Votes.

(** The SELECT has no ORDER BY: the engine lists the matching rows in an
    order of its choosing. *)
Class Engine : Type := {
  row_order : list Row -> list Row;
  row_order_perm : forall l, Permutation (row_order l) l
}.

(** Rows listed in rowid order, as a scan of the table gives them. *)
Instance rowid_engine : Engine :=
  {| row_order := fun l => l; row_order_perm := @Permutation_refl Row |}.

(** Rows listed by [voter_id], as a search of the index behind
    UNIQUE(poll_id, voter_id) gives them; SQLite answers
    [WHERE poll_id = ?] this way. *)
Fixpoint insert_by_voter (r : Row) (l : list Row) : list Row :=
  match l with
  | [] => [r]
  | r' :: rest =>
      if String.leb (voter_id r) (voter_id r')
      then r :: l
      else r' :: insert_by_voter r rest
  end.

Fixpoint sort_by_voter (l : list Row) : list Row :=
  match l with
  | [] => []
  | r :: rest => insert_by_voter r (sort_by_voter rest)
  end.

Instance index_engine : Engine.
Proof.
  refine {| row_order := sort_by_voter |}.
  assert (ins : forall r l, Permutation (insert_by_voter r l) (r :: l)).
  { intros r l; induction l as [| r' rest IH]; simpl.
    - apply Permutation_refl.
    - destruct (String.leb (voter_id r) (voter_id r')).
      + apply Permutation_refl.
      + eapply Permutation_trans; [apply perm_skip, IH | apply perm_swap]. }
  intros l; induction l as [| r rest IH]; simpl.
  - constructor.
  - eapply Permutation_trans; [apply ins | now constructor].
Defined.

(** ** The server's state and effects *)

(** What [broadcast] is given: [{ type: 'vote', poll, results }] or
    [{ type: 'tunnel', url }]. *)
Inductive data : Type :=
| VoteData (poll : string) (results : AggregateResult)
| TunnelData (url : string).

Definition data_type (d : data) : string :=
  match d with
  | VoteData _ _ => "vote"
  | TunnelData _ => "tunnel"
  end.

(** A connected client.  [send_error] is the error [ws.send] throws in the
    socket's present state, if it throws. *)
Record WebSocket : Type := {
  socket_id : nat;
  send_error : option string
}.

Inductive statement : Type := UpsertVote | GetVotes | ClearAll.

Inductive event : Type :=
| Ran (s : statement) (succeeded : bool)
| Sent (socket : nat) (d : data)
| SendThrew (socket : nat) (d : data).

Record World : Type := {
  votes : Table;
  clients : list WebSocket;   (* the [clients] Set, in insertion order *)
  trace : list event          (* what has happened, oldest first *)
}.

(** What the surroundings decide during one request: which statements the
    storage layer fails (and with what message), and the clock. *)
Record Env : Type := {
  failure : statement -> option string;
  now : nat
}.

Definition healthy (clock : nat) : Env :=
  {| failure := fun _ => None; now := clock |}.

(** Computations that read and write the world and may throw. *)
Inductive outcome (A : Type) : Type :=
| Returned (a : A)
| Thrown (message : string).
Arguments Thrown {A}.

Definition M (A : Type) : Type := World -> outcome A * World.

Definition ret {A : Type} (a : A) : M A := fun w => (Returned a, w).

Definition throw {A : Type} (message : string) : M A :=
  fun w => (Thrown message, w).

Definition bind {A B : Type} (m : M A) (k : A -> M B) : M B :=
  fun w =>
    match m w with
    | (Returned a, w') => k a w'
    | (Thrown message, w') => (Thrown message, w')
    end.

Definition try_catch {A : Type} (body : M A) (handler : string -> M A) : M A :=
  fun w =>
    match body w with
    | (Returned a, w') => (Returned a, w')
    | (Thrown message, w') => handler message w'
    end.

Declare Scope server_scope.
Delimit Scope server_scope with server.
Notation "x <- m ;; k" := (bind m (fun x => k))
  (at level 61, m at next level, right associativity) : server_scope.
Notation "m ;;; k" := (bind m (fun _ => k))
  (at level 61, right associativity) : server_scope.
Local Open Scope server_scope.

Fixpoint for_each {X : Type} (l : list X) (body : X -> M unit) : M unit :=
  match l with
  | [] => ret tt
  | x :: rest => body x ;;; for_each rest body
  end.

Definition log_event (e : event) : M unit :=
  fun w => (Returned tt,
            {| votes := votes w; clients := clients w; trace := trace w ++ [e] |}).

Definition read_votes : M Table := fun w => (Returned (votes w), w).

Definition write_votes (t : Table) : M unit :=
  fun w => (Returned tt,
            {| votes := t; clients := clients w; trace := trace w |}).

Definition read_clients : M (list WebSocket) :=
  fun w => (Returned (clients w), w).

(** Running a prepared statement: it throws when the storage layer fails
    it, and otherwise takes effect. *)
Definition run {A : Type} (env : Env) (s : statement) (effect : M A) : M A :=
  match failure env s with
  | Some message => log_event (Ran s false) ;;; throw message
  | None => log_event (Ran s true) ;;; effect
  end.

(** ** API routes *)

(** The body of POST /api/vote after [express.json()]; a field that is
    absent is [None]. *)
Record VoteBody : Type := {
  poll : option string;
  value : option json;
  voterId : option string
}.

Inductive reply : Type :=
| OkReply                              (* [{ ok: true }] *)
| OkMessage (message : string)         (* [{ ok: true, message }] *)
| ErrorReply (error : string)          (* [{ error }] *)
| ResultsReply (r : AggregateResult)
| Unhandled (error : string).          (* Express's own error page *)

Record Response : Type := {
  status : nat;
  body : reply
}.

Definition json_reply (r : reply) : Response := {| status := 200; body := r |}.

Definition status_reply (code : nat) (r : reply) : Response :=
  {| status := code; body := r |}.

Definition missing_string (s : option string) : bool :=
  match s with
  | None => true
  | Some text => String.eqb text ""
  end.

Definition missing_value (v : option json) : bool :=
  match v with
  | None => true
  | Some j => negb (truthy j)
  end.

Section Server.

Context {json_runtime : JSON} {engine : Engine}.

(** The poll catalog the routes consult; the server's own is [POLLS]. *)
Variable catalog : JsObject.t Poll.

Variable env : Env.

(** [upsertVote.run({ poll_id, voter_id, value })] *)
Definition upsertVote_run (p v x : string) : M unit :=
  run env UpsertVote
    (t <- read_votes ;; write_votes (upsert p v x (now env) t)).

(** [getVotes.all(pollId)], each row reduced to its [value]. *)
Definition getVotes_all (p : string) : M (list string) :=
  run env GetVotes
    (t <- read_votes ;; ret (map Votes.value (row_order (of_poll p t)))).

(** [clearAll.run()] *)
Definition clearAll_run : M unit :=
  run env ClearAll (write_votes []).

Definition aggregateResults (pollId : string) : M AggregateResult :=
  rows <- getVotes_all pollId ;;
  ret (aggregate (get catalog pollId) rows).

(** [ws.send(msg)] *)
Definition ws_send (ws : WebSocket) (d : data) : M unit :=
  match send_error ws with
  | Some message => log_event (SendThrew (socket_id ws) d) ;;; throw message
  | None => log_event (Sent (socket_id ws) d)
  end.

Definition broadcast (d : data) : M unit :=
  sockets <- read_clients ;;
  for_each sockets
    (fun ws => try_catch (ws_send ws d) (fun _ => ret tt)).

(** app.post('/api/vote', ...) *)
Definition post_vote (request : VoteBody) : M Response :=
  if missing_string (poll request) || missing_value (value request)
     || missing_string (voterId request)
  then ret (status_reply 400 (ErrorReply "Missing poll, value, or voterId"))
  else
    match poll request, value request, voterId request with
    | Some p, Some x, Some v =>
        match get catalog p with
        | Undefined => ret (status_reply 400 (ErrorReply "Invalid poll ID"))
        | _ =>
            try_catch
              (upsertVote_run p v
                 match x with
                 | JStr text => text
                 | _ => JSON_stringify x
                 end ;;;
               results <- aggregateResults p ;;
               broadcast (VoteData p results) ;;;
               ret (json_reply OkReply))
              (fun message => ret (status_reply 500 (ErrorReply message)))
        end
    | _, _, _ =>
        ret (status_reply 400 (ErrorReply "Missing poll, value, or voterId"))
    end.

(** app.get('/api/results/:pollId', ...) *)
Definition get_results (pollId : string) : M Response :=
  match get catalog pollId with
  | Undefined => ret (status_reply 404 (ErrorReply "Poll not found"))
  | _ => r <- aggregateResults pollId ;; ret (json_reply (ResultsReply r))
  end.

(** app.get('/api/reset', ...) *)
Definition get_reset : M Response :=
  clearAll_run ;;;
  for_each (keys catalog)
    (fun pid =>
       results <- aggregateResults pid ;;
       broadcast (VoteData pid results)) ;;;
  ret (json_reply (OkMessage "All votes cleared")).

(** A route as Express runs it: an error the handler lets escape becomes
    a 500 response. *)
Definition serve (handler : M Response) (w : World) : Response * World :=
  match handler w with
  | (Returned r, w') => (r, w')
  | (Thrown message, w') => (status_reply 500 (Unhandled message), w')
  end.

End Server.

(** wss.on('connection', ...) and the [close] / [error] handlers. *)
Definition connect (ws : WebSocket) (w : World) : World :=
  {| votes := votes w;
     clients :=
       if existsb (fun c => Nat.eqb (socket_id c) (socket_id ws)) (clients w)
       then clients w else clients w ++ [ws];
     trace := trace w |}.

Definition disconnect (id : nat) (w : World) : World :=
  {| votes := votes w;
     clients := filter (fun c => negb (Nat.eqb (socket_id c) id)) (clients w);
     trace := trace w |}.

(** POST /api/vote, as the submitter sees it. *)
Definition submitVote {json_runtime : JSON} {engine : Engine}
    (catalog : JsObject.t Poll) (env : Env) (request : VoteBody) (w : World)
    : Response * World :=
  serve (post_vote catalog env request) w.

(** GET /api/reset, as the administrator sees it. *)
Definition reset {json_runtime : JSON} {engine : Engine}
    (catalog : JsObject.t Poll) (env : Env) (w : World) : Response * World :=
  serve (get_reset catalog env) w.

(** ** A JSON runtime for label arrays

    An executable fragment of the two built-ins: it prints without
    escaping, which is what [JSON.stringify] prints when no string holds a
    quote, a backslash or a control character, and it reads back an array
    of such string literals written without blanks.  Every other text is
    refused (the built-in reads more). *)
Definition dquote : string := String (ascii_of_nat 34) EmptyString.

Fixpoint stringify_plain (j : json) : string :=
  match j with
  | JNull => "null"
  | JBool true => "true"
  | JBool false => "false"
  | JNum shown => shown
  | JStr s => (dquote ++ s ++ dquote)%string
  | JArr items =>
      ("[" ++ join_with "," (map stringify_plain items) ++ "]")%string
  | JObj fields =>
      ("{" ++ join_with ","
                (map (fun kv => (dquote ++ fst kv ++ dquote ++ ":"
                                 ++ stringify_plain (snd kv))%string) fields)
           ++ "}")%string
  end.

(** Reads the characters of a string literal up to its closing quote. *)
Fixpoint read_label (s : string) : option (string * string) :=
  match s with
  | EmptyString => None
  | String c rest =>
      if (nat_of_ascii c =? 34)%nat then Some (EmptyString, rest)
      else if (nat_of_ascii c =? 92)%nat || (nat_of_ascii c <? 32)%nat then None
      else
        match read_label rest with
        | Some (label, after) => Some (String c label, after)
        | None => None
        end
  end.

Fixpoint read_labels (fuel : nat) (s : string) : option (list json) :=
  match fuel with
  | O => None
  | S fuel' =>
      match s with
      | String c rest =>
          if (nat_of_ascii c =? 34)%nat then
            match read_label rest with
            | Some (label, String "," after) =>
                option_map (cons (JStr label)) (read_labels fuel' after)
            | Some (label, String "]" EmptyString) => Some [JStr label]
            | _ => None
            end
          else None
      | EmptyString => None
      end
  end.

Definition parse_label_array (s : string) : option json :=
  match s with
  | String "[" (String "]" EmptyString) => Some (JArr [])
  | String "[" rest => option_map JArr (read_labels (String.length rest) rest)
  | _ => None
  end.

Definition label_arrays : JSON :=
  {| JSON_parse := parse_label_array; JSON_stringify := stringify_plain |}.

(** ** Notions the statements below use *)

(** The labels of [l], each kept at its first occurrence. *)
Fixpoint distinct (l : list string) : list string :=
  match l with
  | [] => []
  | x :: rest => x :: filter (fun y => negb (String.eqb y x)) (distinct rest)
  end.

(** How many elements of [l] are the string [x]. *)
Definition occurrences (x : string) (l : list string) : nat :=
  List.length (filter (String.eqb x) l).

(** A label that [counts[label] = 0] can store: any but [__proto__]. *)
Definition storable (label : string) : bool :=
  negb (String.eqb label "__proto__").

(** A storable label that is not an array index: [Object.entries] lists
    such labels in creation order. *)
Definition plain (label : string) : bool :=
  storable label && negb (is_index label).



(** The labels a stored multi-select value selects: the property keys of
    the parsed array's elements, none when the value is skipped. *)
Definition selected_keys {json_runtime : JSON} (v : string) : list string :=
  match JSON_parse v with
  | Some (JArr selected) => map to_string selected
  | _ => []
  end.

(** The counts object that holds [f label] under each of [labels], in that
    order. *)
Definition counted (labels : list string) (f : string -> nat) : JsObject.t cell :=
  map (fun label => (label, Num (f label))) labels.

(** [counts[k] = g(counts[k])]: the shape [count_up] and [increment]
    share. *)
Definition bump (g : lookup cell -> cell) (counts : JsObject.t cell) (k : string)
    : JsObject.t cell :=
  set counts k (g (get counts k)).

(** No key of [extra] is one of [labels]. *)
Definition outside (labels : list string) (extra : JsObject.t cell) : Prop :=
  forall k, In k (map fst extra) -> ~ In k labels.

(** What [count_up] and [increment] store, given what they read. *)
Definition count_up_rule (found : lookup cell) : cell :=
  match found with
  | Undefined => Num 1
  | Own (Num n) => Num (n + 1)
  | Own NonNumeric => NonNumeric
  | Inherited => NonNumeric
  end.

Definition increment_rule (found : lookup cell) : cell :=
  match found with
  | Own (Num n) => Num (n + 1)
  | _ => NonNumeric
  end.


(** The bucket a write-in poll counts a stored value under: the value
    itself when it is a declared option, "Other" when it is not. *)
Definition bucket_of (opts : list string) (v : string) : string :=
  if existsb (String.eqb v) opts then v else "Other".

(** The stored values that are no declared option, in storage order. *)
Definition write_ins_of (opts rows : list string) : list string :=
  filter (fun v => negb (existsb (String.eqb v) opts)) rows.

(** What one [ws.send] inside [broadcast] leaves in the trace. *)
Definition delivery (d : data) (ws : WebSocket) : event :=
  match send_error ws with
  | Some _ => SendThrew (socket_id ws) d
  | None => Sent (socket_id ws) d
  end.

(** The aggregate [aggregateResults(pollId)] computes from a table. *)
Definition current_aggregate {json_runtime : JSON} {engine : Engine}
    (catalog : JsObject.t Poll) (pollId : string) (t : Table) : AggregateResult :=
  aggregate (get catalog pollId) (map Votes.value (row_order (of_poll pollId t))).

(** The text stored for a submitted value. *)
Definition stored_text {json_runtime : JSON} (x : json) : string :=
  match x with
  | JStr text => text
  | _ => JSON_stringify x
  end.

(** A series of POST /api/vote requests, each under its own conditions. *)
Definition submit_all {json_runtime : JSON} {engine : Engine}
    (catalog : JsObject.t Poll) (requests : list (Env * VoteBody)) (w : World)
    : World :=
  fold_left (fun w' r => snd (submitVote catalog (fst r) (snd r) w')) requests w.

(** A submission: who, what, when. *)
Definition voter_of (s : string * string * nat) : string := fst (fst s).
Definition text_of (s : string * string * nat) : string := snd (fst s).

(** A text submission by [voter] to poll [p] at time [clock], storage
    working. *)
Definition text_vote (p : string) (s : string * string * nat) : Env * VoteBody :=
  let '(voter, text, clock) := s in
  (healthy clock,
   {| poll := Some p; value := Some (JStr text); voterId := Some voter |}).

(** The row a text submission creates. *)
Definition row_of (p : string) (s : string * string * nat) : Row :=
  let '(voter, text, clock) := s in
  {| poll_id := p; voter_id := voter; Votes.value := text; created_at := clock |}.

(** A world with an empty table, the given clients and no history. *)
Definition fresh (sockets : list WebSocket) : World :=
  {| votes := []; clients := sockets; trace := [] |}.



(** Overwriting the row of [(p, v)], every other row left as it is. *)
Definition overwrite (p v x : string) (clock : nat) (r : Row) : Row :=
  if has_key p v r
  then {| poll_id := poll_id r; voter_id := voter_id r;
          Votes.value := x; created_at := clock |}
  else r.

(** One client whose socket delivers, one whose socket throws. *)
Definition open_socket (id : nat) : WebSocket :=
  {| socket_id := id; send_error := None |}.

Definition broken_socket (id : nat) : WebSocket :=
  {| socket_id := id; send_error := Some "WebSocket is not open" |}.

(** The world after further events. *)
Definition extend (w : World) (events : list event) : World :=
  {| votes := votes w; clients := clients w; trace := trace w ++ events |}.

(** The world with another table. *)
Definition with_votes (w : World) (t : Table) : World :=
  {| votes := t; clients := clients w; trace := trace w |}.

(** The request names poll [p], voter [v] and value [x], none of them
    missing or empty, and [POLLS[p]] is truthy: it gets past both checks of
    the vote route. *)
Definition passes (catalog : JsObject.t Poll) (request : VoteBody)
    (p v : string) (x : json) : Prop :=
  poll request = Some p /\ p <> ""
  /\ value request = Some x /\ truthy x = true
  /\ voterId request = Some v /\ v <> ""
  /\ get catalog p <> Undefined.

(** The event types of what was sent to clients, oldest first. *)
Definition sent_types (events : list event) : list string :=
  flat_map (fun e => match e with
                     | Sent _ d => [data_type d]
                     | _ => []
                     end) events.

(** ** The rating average, as arithmetic *)

(** The integers the stored values denote, unparseable values left out. *)
Definition parsed_integers (rows : list string) : list Z :=
  flat_map (fun v => match integer_prefix v with
                     | Some z => [z]
                     | None => []
                     end) rows.

Definition parseable (v : string) : bool :=
  match integer_prefix v with
  | Some _ => true
  | None => false
  end.

Definition sum_Z (l : list Z) : Z := fold_right Z.add 0%Z l.

Definition sum_abs (l : list Z) : Z :=
  fold_right (fun z acc => Z.abs z + acc)%Z 0%Z l.

(** The reading of "the arithmetic mean of the integer-parseable values,
    rounded to one decimal place, or 0.0": the exact mean, rounded to the
    nearest tenth, a tie going away from zero. *)
Definition spec_average (rows : list string) : string :=
  let zs := parsed_integers rows in
  match zs with
  | [] => "0.0"
  | _ =>
      let s := sum_Z zs in
      let n := Z.of_nat (List.length zs) in
      fixed1 (s <? 0)%Z ((20 * Z.abs s + n) / (2 * n))%Z
  end.

(** ** Notions for the rest of the server *)

(** The row of [votes] that UNIQUE(poll_id, voter_id) singles out. *)
Definition find_row (p v : string) (t : Table) : option Row :=
  find (has_key p v) t.

(** The latest of a voter's submissions. *)
Definition latest_of (voter : string) (subs : list (string * string * nat))
    : option (string * string * nat) :=
  find (fun s => String.eqb (voter_of s) voter) (rev subs).

(** The row a voter ends up with: key [(p, voter)], text and timestamp of
    the latest submission. *)
Definition final_row (p : string) (subs : list (string * string * nat))
    (voter : string) : Row :=
  match latest_of voter subs with
  | Some s => row_of p s
  | None => {| poll_id := p; voter_id := voter; Votes.value := ""; created_at := 0 |}
  end.

(** wss.on('connection') and the [close] / [error] handlers, as a series
    of events. *)
Inductive socket_event : Type :=
| Opened (ws : WebSocket)
| Closed (id : nat).

Definition on_socket_event (w : World) (e : socket_event) : World :=
  match e with
  | Opened ws => connect ws w
  | Closed id => disconnect id w
  end.

(** The sockets a trace shows a delivery attempt to. *)
Definition attempted (events : list event) : list nat :=
  flat_map (fun e => match e with
                     | Sent id _ => [id]
                     | SendThrew id _ => [id]
                     | Ran _ _ => []
                     end) events.

(** ** The vote page's script *)

(** [s.replace(/c/g, by)] for a one-character pattern. *)
Fixpoint replace_all (c : ascii) (by_text : string) (s : string) : string :=
  match s with
  | EmptyString => EmptyString
  | String a rest =>
      if Ascii.eqb a c
      then (by_text ++ replace_all c by_text rest)%string
      else String a (replace_all c by_text rest)
  end.

Definition escapeAttr (s : string) : string :=
  replace_all ">" "&gt;"
    (replace_all "<" "&lt;"
       (replace_all "'" "&#39;"
          (replace_all (ascii_of_nat 34) "&quot;" s))).

Fixpoint contains_char (c : ascii) (s : string) : bool :=
  match s with
  | EmptyString => false
  | String a rest => Ascii.eqb a c || contains_char c rest
  end.

(** The four characters [escapeAttr] replaces. *)
Definition markup_chars : list ascii := [ascii_of_nat 34; "'"; "<"; ">"]%char.

(** The [selected] Set of a multi-select poll, in insertion order, and the
    click handler of an option card: a selected value is removed, any
    other is added. *)
Definition click (selected : list string) (val : string) : list string :=
  if existsb (String.eqb val) selected
  then filter (fun x => negb (String.eqb x val)) selected
  else selected ++ [val].

(** What the Submit button of a multi-select poll posts as [value] after
    the given clicks: nothing while the selection is empty. *)
Definition multi_submission {json_runtime : JSON} (clicked : list string)
    : option string :=
  match fold_left click clicked [] with
  | [] => None
  | selected => Some (JSON_stringify (JArr (map JStr selected)))
  end.

(** The values the five buttons of a rating-scale poll post. *)
Definition likert_buttons : list string := ["1"; "2"; "3"; "4"; "5"].

(** The count a result entry shows, when it is a number. *)
Definition numeric (it : item) : bool :=
  match it with
  | Tally _ (Num _) => true
  | _ => false
  end.

Definition count_of (it : item) : nat :=
  match it with
  | Tally _ (Num n) => n
  | _ => 0
  end.

Definition count_sum (items : list item) : nat :=
  fold_right (fun it acc => count_of it + acc) 0 items.

(** The stored values of voters who each used the multi-select page once:
    one row per voter whose Submit button posted something. *)
Definition page_rows {json_runtime : JSON} (ballots : list (list string))
    : list string :=
  flat_map (fun clicked => match multi_submission clicked with
                           | Some v => [v]
                           | None => []
                           end) ballots.
Example entries_index_first :
  keys (literal [("b", 1); ("10", 2); ("a", 3); ("2", 4); ("01", 5)])
  = ["2"; "10"; "b"; "a"; "01"].
Proof. reflexivity. Qed.

Example parseInt_examples :
  map parseInt ["42"; "  -7px"; "0x1F"; "abc"; ""; "+"; "3.9"; "9007199254740993"]
  = [Int 42; Int (-7); Int 31; NaN; NaN; NaN; Int 3; Int 9007199254740992].
Proof. vm_compute. reflexivity. Qed.

Example toFixed1_examples :
  map (fun sn => toFixed1 (divide (Int (fst sn)) (snd sn)))
      [(9, 3); (7, 20); (1, 4); (-1, 25); (29, 20); (0, 5); (10, 3);
       (1000000000000000000000, 1); (1234567890123456789012345, 1)]%Z
  = ["3.0"; "0.3"; "0.3"; "-0.0"; "1.4"; "0.0"; "3.3"; "1e+21";
     "1.2345678901234568e+24"].
Proof. vm_compute. reflexivity. Qed.

Example POLLS_keys : keys POLLS = ["1"; "2"; "3"; "4"; "5"; "6"].
Proof. reflexivity. Qed.

Example label_arrays_roundtrip :
  parse_label_array (stringify_plain (JArr [JStr "X"; JStr "Y"]))
  = Some (JArr [JStr "X"; JStr "Y"])
  /\ parse_label_array "not json" = None.
Proof. split; reflexivity. Qed.

(** * Properties *)

(** ** Own properties of a plain object *)
Section OwnProperties.

Variable V : Type.
Implicit Types (o : JsObject.t V) (k : string) (v : V).

Lemma own_get_app_in o1 o2 k :
  In k (map fst o1) -> own_get k (o1 ++ o2) = own_get k o1.
Proof.
  induction o1 as [| [k' v'] rest IH]; simpl; intros Hin.
  - contradiction.
  - destruct (String.eqb_spec k k') as [->|Hne]; [reflexivity|].
    apply IH. destruct Hin as [Heq|Hin]; [congruence|exact Hin].
Qed.

Lemma own_get_app_out o1 o2 k :
  ~ In k (map fst o1) -> own_get k (o1 ++ o2) = own_get k o2.
Proof.
  induction o1 as [| [k' v'] rest IH]; simpl; intros Hout.
  - reflexivity.
  - destruct (String.eqb_spec k k') as [->|Hne].
    + exfalso. apply Hout. now left.
    + apply IH. intros Hin. apply Hout. now right.
Qed.

Lemma own_put_app_in o1 o2 k v :
  In k (map fst o1) -> own_put k v (o1 ++ o2) = own_put k v o1 ++ o2.
Proof.
  induction o1 as [| [k' v'] rest IH]; simpl; intros Hin.
  - contradiction.
  - destruct (String.eqb_spec k k') as [->|Hne]; [reflexivity|].
    simpl. f_equal. apply IH.
    destruct Hin as [Heq|Hin]; [congruence|exact Hin].
Qed.

Lemma own_put_app_out o1 o2 k v :
  ~ In k (map fst o1) -> own_put k v (o1 ++ o2) = o1 ++ own_put k v o2.
Proof.
  induction o1 as [| [k' v'] rest IH]; simpl; intros Hout.
  - reflexivity.
  - destruct (String.eqb_spec k k') as [->|Hne].
    + exfalso. apply Hout. now left.
    + f_equal. apply IH. intros Hin. apply Hout. now right.
Qed.

Lemma own_put_keys o k v k' :
  In k' (map fst (own_put k v o)) -> k' = k \/ In k' (map fst o).
Proof.
  induction o as [| [k0 v0] rest IH]; simpl.
  - intros [<-|[]]. now left.
  - destruct (String.eqb_spec k k0) as [->|Hne]; simpl.
    + intros H. now right.
    + intros [<-|H]; [right; now left|].
      destruct (IH H) as [->|Hin]; [now left | right; now right].
Qed.

Lemma own_get_none o k : ~ In k (map fst o) -> own_get k o = None.
Proof.
  induction o as [| [k0 v0] rest IH]; simpl; intros Hout.
  - reflexivity.
  - destruct (String.eqb_spec k k0) as [->|Hne].
    + exfalso. apply Hout. now left.
    + apply IH. intros Hin. apply Hout. now right.
Qed.

Lemma own_put_fresh o k v :
  ~ In k (map fst o) -> own_put k v o = o ++ [(k, v)].
Proof.
  induction o as [| [k0 v0] rest IH]; simpl; intros Hout.
  - reflexivity.
  - destruct (String.eqb_spec k k0) as [->|Hne].
    + exfalso. apply Hout. now left.
    + f_equal. apply IH. intros Hin. apply Hout. now right.
Qed.

(** *** [Object.entries] only reorders *)

Lemma insert_by_index_perm (e : string * V) (l : JsObject.t V) :
  Permutation (insert_by_index e l) (e :: l).
Proof.
  induction l as [| e' rest IH]; simpl.
  - apply Permutation_refl.
  - destruct (index_of (fst e) <=? index_of (fst e'))%N.
    + apply Permutation_refl.
    + eapply Permutation_trans; [apply perm_skip, IH | apply perm_swap].
Qed.

Lemma sort_by_index_perm (l : JsObject.t V) :
  Permutation (sort_by_index l) l.
Proof.
  induction l as [| e rest IH]; simpl.
  - constructor.
  - eapply Permutation_trans; [apply insert_by_index_perm | now constructor].
Qed.

Lemma filter_split_perm (f : string * V -> bool) (l : JsObject.t V) :
  Permutation (filter f l ++ filter (fun e => negb (f e)) l) l.
Proof.
  induction l as [| e rest IH]; simpl.
  - constructor.
  - destruct (f e); simpl.
    + now constructor.
    + eapply Permutation_trans; [apply Permutation_sym, Permutation_middle|].
      now constructor.
Qed.

Lemma entries_perm o : Permutation (entries o) o.
Proof.
  unfold entries.
  eapply Permutation_trans; [| apply (filter_split_perm (fun e => is_index (fst e)))].
  apply Permutation_app_tail, sort_by_index_perm.
Qed.

Lemma filter_none (f : string * V -> bool) (l : JsObject.t V) :
  (forall e, In e l -> f e = false) -> filter f l = [].
Proof.
  induction l as [| e rest IH]; simpl; intros Hall.
  - reflexivity.
  - rewrite (Hall e (or_introl eq_refl)). apply IH.
    intros e' Hin. apply Hall. now right.
Qed.


End OwnProperties.

(** ** Labels kept at their first occurrence *)

Lemma filter_filter_comm {A : Type} (f g : A -> bool) (l : list A) :
  filter f (filter g l) = filter g (filter f l).
Proof.
  induction l as [| x rest IH]; simpl; [reflexivity|].
  destruct (f x) eqn:Hf, (g x) eqn:Hg; simpl; rewrite ?Hf, ?Hg, IH; reflexivity.
Qed.

Lemma filter_absorb {A : Type} (f g : A -> bool) (l : list A) :
  (forall x, f x = true -> g x = true) -> filter f (filter g l) = filter f l.
Proof.
  intros Himp. induction l as [| x rest IH]; simpl; [reflexivity|].
  destruct (g x) eqn:Hg; simpl.
  - now rewrite IH.
  - destruct (f x) eqn:Hf; [|exact IH].
    rewrite (Himp x Hf) in Hg. discriminate.
Qed.

Lemma distinct_filter (g : string -> bool) (l : list string) :
  filter g (distinct l) = distinct (filter g l).
Proof.
  induction l as [| x rest IH]; simpl; [reflexivity|].
  destruct (g x) eqn:Hg; simpl.
  - f_equal. rewrite filter_filter_comm, IH. reflexivity.
  - rewrite <- IH. apply filter_absorb.
    intros y Hy. destruct (String.eqb_spec y x) as [->|]; [congruence|reflexivity].
Qed.

Lemma distinct_In (x : string) (l : list string) :
  In x (distinct l) <-> In x l.
Proof.
  induction l as [| y rest IH]; simpl; [tauto|].
  rewrite filter_In, IH.
  destruct (String.eqb_spec x y) as [->|Hne]; simpl.
  - split; intros _; now left.
  - split.
    + intros [H|[H _]]; [now left | now right].
    + intros [H|H]; [now left | right; now split].
Qed.

Lemma distinct_NoDup (l : list string) : NoDup (distinct l).
Proof.
  induction l as [| y rest IH]; simpl; constructor.
  - rewrite filter_In. intros [_ H]. now rewrite String.eqb_refl in H.
  - now apply NoDup_filter.
Qed.

Lemma distinct_of_NoDup (l : list string) : NoDup l -> distinct l = l.
Proof.
  induction 1 as [| x rest Hout Hnd IH]; simpl; [reflexivity|].
  rewrite IH. f_equal.
  rewrite forallb_filter_id; [reflexivity|].
  apply forallb_forall. intros y Hy.
  destruct (String.eqb_spec y x) as [->|]; [contradiction|reflexivity].
Qed.

Lemma occurrences_cons (x y : string) (l : list string) :
  occurrences x (y :: l) = (if String.eqb x y then 1 else 0) + occurrences x l.
Proof. unfold occurrences. simpl. now destruct (String.eqb x y). Qed.

Lemma occurrences_app (x : string) (l1 l2 : list string) :
  occurrences x (l1 ++ l2) = occurrences x l1 + occurrences x l2.
Proof. unfold occurrences. now rewrite filter_app, length_app. Qed.

(** ** The shape of a counts object *)

Lemma counted_keys (labels : list string) (f : string -> nat) :
  map fst (counted labels f) = labels.
Proof.
  unfold counted. rewrite map_map. simpl. apply map_id.
Qed.

Lemma counted_ext (labels : list string) (f g : string -> nat) :
  (forall x, In x labels -> f x = g x) -> counted labels f = counted labels g.
Proof.
  intros H. apply map_ext_in. intros x Hx. now rewrite (H x Hx).
Qed.

Lemma counted_app (l1 l2 : list string) (f : string -> nat) :
  counted (l1 ++ l2) f = counted l1 f ++ counted l2 f.
Proof. apply map_app. Qed.

Lemma own_get_counted (labels : list string) (f : string -> nat) (x : string) :
  In x labels -> own_get x (counted labels f) = Some (Num (f x)).
Proof.
  induction labels as [| y rest IH]; simpl; intros Hin; [contradiction|].
  destruct (String.eqb_spec x y) as [->|Hne]; [reflexivity|].
  apply IH. destruct Hin as [H|H]; [congruence|exact H].
Qed.

Lemma own_put_counted (labels : list string) (f : string -> nat)
    (x : string) (n : nat) :
  NoDup labels -> In x labels ->
  own_put x (Num n) (counted labels f)
  = counted labels (fun y => if String.eqb x y then n else f y).
Proof.
  induction 1 as [| y rest Hout Hnd IH]; simpl; intros Hin; [contradiction|].
  destruct (String.eqb_spec x y) as [->|Hne].
  - f_equal. apply counted_ext. intros z Hz.
    destruct (String.eqb_spec y z) as [->|]; [contradiction|reflexivity].
  - f_equal. apply IH. destruct Hin as [H|H]; [congruence|exact H].
Qed.

Lemma count_up_bump : count_up = bump count_up_rule.
Proof. reflexivity. Qed.

Lemma increment_bump : increment = bump increment_rule.
Proof. reflexivity. Qed.

Section CountsShape.

Variable g : lookup cell -> cell.
Hypothesis g_own : forall n, g (Own (Num n)) = Num (n + 1).

Variable labels : list string.
Hypothesis labels_distinct : NoDup labels.
Hypothesis labels_storable : ~ In "__proto__" labels.

(** One update keeps the declared labels in place, adds one to the count
    of the key when it is declared, and otherwise touches only what lies
    behind them. *)
Lemma bump_shape (f : string -> nat) (extra : JsObject.t cell) (k : string) :
  outside labels extra ->
  exists extra',
    bump g (counted labels f ++ extra) k
    = counted labels (fun x => f x + (if String.eqb x k then 1 else 0)) ++ extra'
    /\ outside labels extra'
    /\ (In k labels \/ k = "__proto__" -> extra' = extra).
Proof.
  intros Hout. unfold bump, set.
  destruct (String.eqb_spec k "__proto__") as [->|Hproto].
  - exists extra. split; [|split; [exact Hout | reflexivity]].
    f_equal. apply counted_ext. intros x Hx.
    destruct (String.eqb_spec x "__proto__") as [->|]; [contradiction|lia].
  - destruct (in_dec string_dec k labels) as [Hin|Hnin].
    + exists extra. split; [|split; [exact Hout | reflexivity]].
      unfold get.
      rewrite own_get_app_in by (now rewrite counted_keys).
      rewrite own_get_counted by exact Hin. rewrite g_own.
      rewrite own_put_app_in by (now rewrite counted_keys).
      rewrite own_put_counted by assumption.
      f_equal. apply counted_ext. intros x Hx.
      rewrite (String.eqb_sym x k).
      destruct (String.eqb_spec k x) as [->|]; lia.
    + exists (own_put k (g (get (counted labels f ++ extra) k)) extra).
      split; [|split].
      * rewrite own_put_app_out by (now rewrite counted_keys).
        f_equal. apply counted_ext. intros x Hx.
        destruct (String.eqb_spec x k) as [->|]; [contradiction|lia].
      * intros k' Hk'. apply own_put_keys in Hk'.
        destruct Hk' as [->|Hk']; [exact Hnin | now apply Hout].
      * intros [Hin|Heq]; contradiction.
Qed.

Lemma fold_bump_shape (ks : list string) :
  forall (f : string -> nat) (extra : JsObject.t cell),
    outside labels extra ->
    exists extra',
      fold_left (bump g) ks (counted labels f ++ extra)
      = counted labels (fun x => f x + occurrences x ks) ++ extra'
      /\ outside labels extra'
      /\ ((forall k, In k ks -> In k labels \/ k = "__proto__") ->
          extra' = extra).
Proof.
  induction ks as [| k rest IH]; intros f extra Hout; simpl.
  - exists extra. split; [|split; [exact Hout | reflexivity]].
    f_equal. apply counted_ext. intros x _. unfold occurrences. simpl. lia.
  - destruct (@bump_shape f extra k Hout) as (extra1 & Heq1 & Hout1 & Hsame1).
    rewrite Heq1.
    destruct (IH (fun x => f x + (if String.eqb x k then 1 else 0)) extra1 Hout1)
      as (extra2 & Heq2 & Hout2 & Hsame2).
    exists extra2. split; [|split; [exact Hout2|]].
    + rewrite Heq2. f_equal. apply counted_ext. intros x _.
      rewrite occurrences_cons. lia.
    + intros Hall. rewrite Hsame2.
      * apply Hsame1, Hall. now left.
      * intros k' Hk'. apply Hall. now right.
Qed.

End CountsShape.

Lemma outside_nil (labels : list string) : outside labels [].
Proof. intros k []. Qed.

(** [zero_counts] holds a zero under every storable option, each at the
    place of its first occurrence. *)
Lemma zero_counts_from (opts : list string) :
  forall seen : list string,
    fold_left (fun counts o => set counts o (Num 0)) opts
              (counted seen (fun _ => 0))
    = counted
        (seen ++ distinct
                   (filter (fun o => storable o && negb (existsb (String.eqb o) seen))
                           opts))
        (fun _ => 0).
Proof.
  induction opts as [| o rest IH]; intros seen; simpl.
  - now rewrite app_nil_r.
  - unfold set at 2. unfold storable at 1.
    destruct (String.eqb_spec o "__proto__") as [->|Hproto]; simpl.
    + apply IH.
    + destruct (existsb (String.eqb o) seen) eqn:Hseen; simpl.
      * assert (Hin : In o seen).
        { apply existsb_exists in Hseen. destruct Hseen as (y & Hy & Heq).
          apply String.eqb_eq in Heq. now subst. }
        assert (Hput : own_put o (Num 0) (counted seen (fun _ => 0))
                       = counted seen (fun _ => 0)).
        { clear -Hin. induction seen as [| y more IHs]; simpl; [contradiction|].
          destruct (String.eqb_spec o y) as [->|Hne]; [reflexivity|].
          f_equal. apply IHs. destruct Hin as [H|H]; [congruence|exact H]. }
        rewrite Hput. apply IH.
      * assert (Hnin : ~ In o seen).
        { intros Hin. apply Bool.not_true_iff_false in Hseen. apply Hseen.
          apply existsb_exists. exists o. split; [exact Hin|apply String.eqb_refl]. }
        rewrite own_put_fresh by (now rewrite counted_keys).
        change [(o, Num 0)] with (counted [o] (fun _ => 0)).
        rewrite <- counted_app, IH. f_equal.
        rewrite <- app_assoc. simpl. do 2 f_equal.
        rewrite distinct_filter. f_equal.
        clear. induction rest as [| y more IHr]; simpl; [reflexivity|].
        rewrite existsb_app. simpl. rewrite Bool.orb_false_r.
        destruct (storable y); simpl; [|exact IHr].
        destruct (existsb (String.eqb y) seen); simpl; [exact IHr|].
        destruct (String.eqb y o); simpl; [exact IHr | now f_equal].
Qed.

Lemma zero_counts_shape (opts : list string) :
  zero_counts opts = counted (distinct (filter storable opts)) (fun _ => 0).
Proof.
  unfold zero_counts.
  change (@empty cell) with (counted [] (fun _ => 0)).
  rewrite zero_counts_from. simpl. do 2 f_equal.
  apply filter_ext. intros o. now rewrite Bool.andb_true_r.
Qed.

(** ** Single-choice and rating-scale counts *)

Lemma entries_plain {V : Type} (o : JsObject.t V) :
  (forall e, In e o -> is_index (fst e) = false) -> entries o = o.
Proof.
  intros Hplain. unfold entries.
  rewrite filter_none by exact Hplain. simpl.
  apply forallb_filter_id, forallb_forall.
  intros e He. now rewrite (Hplain e He).
Qed.


Lemma mem_In (x : string) (l : list string) :
  existsb (String.eqb x) l = true <-> In x l.
Proof.
  rewrite existsb_exists. split.
  - intros (y & Hy & Heq). apply String.eqb_eq in Heq. now subst.
  - intros Hin. exists x. split; [exact Hin | apply String.eqb_refl].
Qed.

Lemma plain_storable (o : string) : plain o = true -> storable o = true.
Proof. unfold plain. now intros H%Bool.andb_true_iff. Qed.

Lemma plain_not_index (o : string) : plain o = true -> is_index o = false.
Proof.
  unfold plain. intros H%Bool.andb_true_iff.
  now apply Bool.negb_true_iff.
Qed.

Lemma storable_spec (o : string) : storable o = true <-> o <> "__proto__".
Proof.
  unfold storable. destruct (String.eqb_spec o "__proto__"); simpl; split;
    congruence.
Qed.

(** The counts of the simple path: the storable options first, each with
    the number of votes that name it, then the buckets of the values that
    name no option. *)
Lemma simple_counts_shape (opts rows : list string) :
  exists extra,
    fold_left count_up rows (zero_counts opts)
    = counted (distinct (filter storable opts)) (fun o => occurrences o rows)
      ++ extra
    /\ outside (distinct (filter storable opts)) extra
    /\ ((forall v, In v rows -> In v opts) -> extra = []).
Proof.
  rewrite zero_counts_shape, count_up_bump.
  rewrite <- (app_nil_r (counted _ (fun _ => 0))).
  destruct (@fold_bump_shape count_up_rule (fun n => eq_refl)
              (distinct (filter storable opts)) (distinct_NoDup _)) with
    (ks := rows) (f := fun _ : string => 0) (extra := @nil (string * cell))
    as (extra & Heq & Hout & Hsame).
  - rewrite distinct_In, filter_In. intros [_ H]. discriminate.
  - apply outside_nil.
  - exists extra. split; [exact Heq | split; [exact Hout|]].
    intros Hall. apply Hsame. intros k Hk.
    destruct (String.eqb_spec k "__proto__") as [->|Hne]; [now right|left].
    rewrite distinct_In, filter_In. split; [now apply Hall|].
    now apply storable_spec.
Qed.


Lemma simple_poll_unfold {J : JSON} (p : Poll) (rows : list string) :
  type p = "mc" \/ type p = "likert" ->
  total (aggregate (Own p) rows) = List.length rows
  /\ results (aggregate (Own p) rows)
     = tallies (fold_left count_up rows (zero_counts (options p))).
Proof.
  unfold aggregate. intros [Hty|Hty]; rewrite Hty; simpl; split; reflexivity.
Qed.

Lemma counted_plain_entries (labels : list string) (f : string -> nat) :
  forallb plain labels = true ->
  tallies (counted labels f) = map (fun o => Tally o (Num (f o))) labels.
Proof.
  intros Hplain. unfold tallies. rewrite entries_plain.
  - unfold counted. now rewrite map_map.
  - intros [k v] Hin. simpl.
    assert (Hk : In k labels).
    { rewrite <- (counted_keys labels f). apply in_map_iff. now exists (k, v). }
    apply plain_not_index. rewrite forallb_forall in Hplain. now apply Hplain.
Qed.

Lemma plain_all_storable (labels : list string) :
  forallb plain labels = true -> filter storable labels = labels.
Proof.
  intros Hplain. apply forallb_filter_id, forallb_forall.
  intros o Ho. apply plain_storable.
  rewrite forallb_forall in Hplain. now apply Hplain.
Qed.




(** ** Multi-select counts *)
Section MultiSelect.

Context {J : JSON}.

Lemma multi_step_keys (counts : JsObject.t cell) (v : string) :
  multi_step counts v = fold_left count_up (selected_keys v) counts.
Proof.
  unfold multi_step, selected_keys.
  destruct (JSON_parse v) as [[| | | | items |]|]; reflexivity.
Qed.

Lemma fold_multi_step (rows : list string) :
  forall counts,
    fold_left multi_step rows counts
    = fold_left count_up (flat_map selected_keys rows) counts.
Proof.
  induction rows as [| v rest IH]; intros counts; simpl; [reflexivity|].
  now rewrite fold_left_app, <- multi_step_keys, IH.
Qed.

Lemma multi_poll_unfold (p : Poll) (rows : list string) :
  type p = "multi" ->
  total (aggregate (Own p) rows) = List.length rows
  /\ results (aggregate (Own p) rows)
     = tallies (fold_left count_up (flat_map selected_keys rows)
                  (zero_counts (options p))).
Proof.
  unfold aggregate. intros Hty. rewrite Hty. simpl.
  now rewrite fold_multi_step.
Qed.

Lemma occurrences_NoDup (x : string) (l : list string) :
  NoDup l -> occurrences x l = if existsb (String.eqb x) l then 1 else 0.
Proof.
  induction 1 as [| y rest Hout Hnd IH]; [reflexivity|].
  rewrite occurrences_cons, IH. simpl.
  destruct (String.eqb_spec x y) as [->|Hne]; simpl; [|reflexivity].
  destruct (existsb (String.eqb y) rest) eqn:Hmem; [|reflexivity].
  apply mem_In in Hmem. contradiction.
Qed.



End MultiSelect.



(** ** Single choice with write-in *)
Section WriteIn.

Context {J : JSON}.

Lemma fold_writein_step (opts rows : list string) :
  forall counts writeins,
    fold_left (writein_step opts) rows (counts, writeins)
    = (fold_left increment (map (bucket_of opts) rows) counts,
       writeins ++ write_ins_of opts rows).
Proof.
  induction rows as [| v rest IH]; intros counts writeins; simpl.
  - now rewrite app_nil_r.
  - unfold writein_step at 2, bucket_of at 2. simpl.
    destruct (existsb (String.eqb v) opts); simpl; rewrite IH.
    + reflexivity.
    + now rewrite <- app_assoc.
Qed.

Lemma writein_poll_unfold (p : Poll) (rows : list string) :
  type p = "mc-writein" ->
  aggregate (Own p) rows
  = {| total := List.length rows;
       results := tallies (fold_left increment (map (bucket_of (options p)) rows)
                             (zero_counts (options p ++ ["Other"])));
       writeIns := Some (rev (write_ins_of (options p) rows));
       average := None |}.
Proof.
  unfold aggregate. intros Hty. rewrite Hty. simpl.
  rewrite fold_writein_step. simpl.
  unfold zero_counts. now rewrite fold_left_app.
Qed.

Lemma writein_counts_shape (opts rows : list string) :
  fold_left increment (map (bucket_of opts) rows) (zero_counts (opts ++ ["Other"]))
  = counted (distinct (filter storable (opts ++ ["Other"])))
      (fun o => occurrences o (map (bucket_of opts) rows)).
Proof.
  rewrite zero_counts_shape, increment_bump.
  rewrite <- (app_nil_r (counted _ (fun _ => 0))).
  destruct (@fold_bump_shape increment_rule (fun n => eq_refl)
              (distinct (filter storable (opts ++ ["Other"])))
              (distinct_NoDup _)) with
    (ks := map (bucket_of opts) rows) (f := fun _ : string => 0)
    (extra := @nil (string * cell))
    as (extra & Heq & _ & Hsame).
  - rewrite distinct_In, filter_In. intros [_ H]. discriminate.
  - apply outside_nil.
  - rewrite Heq, Hsame, app_nil_r; [reflexivity|].
    intros k Hk. apply in_map_iff in Hk. destruct Hk as (v & <- & _).
    destruct (String.eqb_spec (bucket_of opts v) "__proto__") as [Heq'|Hne];
      [now right | left].
    rewrite distinct_In, filter_In. split; [| now apply storable_spec].
    apply in_or_app. unfold bucket_of.
    destruct (existsb (String.eqb v) opts) eqn:Hmem.
    + left. now apply mem_In.
    + right. now left.
Qed.

Lemma occurrences_bucket_declared (opts rows : list string) (o : string) :
  o <> "Other" ->
  occurrences o (map (bucket_of opts) rows)
  = List.length (filter (fun v => String.eqb o v && existsb (String.eqb v) opts) rows).
Proof.
  intros Hne. unfold occurrences.
  induction rows as [| v rest IH]; simpl; [reflexivity|].
  unfold bucket_of at 1.
  destruct (existsb (String.eqb v) opts); simpl.
  - rewrite Bool.andb_true_r. destruct (String.eqb o v); simpl; now rewrite IH.
  - rewrite Bool.andb_false_r.
    destruct (String.eqb_spec o "Other"); [contradiction | exact IH].
Qed.

Lemma occurrences_declared (opts rows : list string) (o : string) :
  In o opts -> o <> "Other" ->
  occurrences o (map (bucket_of opts) rows) = occurrences o rows.
Proof.
  intros Hin Hne. rewrite occurrences_bucket_declared by exact Hne.
  unfold occurrences. f_equal. apply filter_ext. intros v.
  destruct (String.eqb_spec o v) as [<-|]; simpl; [|reflexivity].
  now apply mem_In.
Qed.

Lemma occurrences_other (opts rows : list string) :
  ~ In "Other" opts ->
  occurrences "Other" (map (bucket_of opts) rows)
  = List.length (write_ins_of opts rows).
Proof.
  intros Hout. unfold occurrences, write_ins_of.
  induction rows as [| v rest IH]; [reflexivity|].
  cbn -[String.eqb]. unfold bucket_of at 1.
  destruct (existsb (String.eqb v) opts) eqn:Hmem; cbn -[String.eqb].
  - destruct (String.eqb_spec "Other" v) as [<-|]; [|exact IH].
    apply mem_In in Hmem. contradiction.
  - rewrite String.eqb_refl. cbn -[String.eqb]. now rewrite IH.
Qed.

(** C5 (amended).  For every single-choice-with-writein poll and every
    list of stored values: a value is counted under its own label when it
    exactly equals a declared option and under "Other" otherwise, and in
    the latter case (only) it is in the write-in list, which lists the
    write-ins in reverse storage order; the results list every declared
    option (other than [__proto__]) and "Other" once and nothing else,
    counts starting from zero.  A declared option other than "Other" is
    counted by exactly the votes that equal it; "Other" is counted by
    exactly the write-ins when the poll does not itself declare an
    option "Other", and by the write-ins together with the votes for
    that option when it does. *)
Theorem writein_poll_results (p : Poll) (rows : list string) :
  type p = "mc-writein" ->
  let r := aggregate (Own p) rows in
  let count o := occurrences o (map (bucket_of (options p)) rows) in
  total r = List.length rows
  /\ writeIns r = Some (rev (write_ins_of (options p) rows))
  /\ Permutation (results r)
       (map (fun o => Tally o (Num (count o)))
            (distinct (filter storable (options p ++ ["Other"]))))
  /\ (forall o, In o (options p) -> o <> "Other" ->
        count o = occurrences o rows)
  /\ (~ In "Other" (options p) ->
        count "Other" = List.length (write_ins_of (options p) rows))
  /\ (NoDup (options p) -> forallb plain (options p) = true ->
      ~ In "Other" (options p) ->
      results r
      = map (fun o => Tally o (Num (occurrences o rows))) (options p)
        ++ [Tally "Other" (Num (List.length (write_ins_of (options p) rows)))]).
Proof.
  intros Hty r count. subst r count.
  rewrite (writein_poll_unfold p rows Hty). simpl.
  rewrite writein_counts_shape.
  split; [reflexivity|]. split; [reflexivity|]. split; [|split; [|split]].
  - unfold tallies, counted.
    eapply Permutation_trans;
      [apply Permutation_map, entries_perm | rewrite map_map; apply Permutation_refl].
  - intros o Ho Hne. now apply occurrences_declared.
  - apply occurrences_other.
  - intros Hnd Hplain Hout.
    assert (Hplain' : forallb plain (options p ++ ["Other"]) = true).
    { rewrite forallb_app, Hplain. reflexivity. }
    assert (Hnd' : NoDup (options p ++ ["Other"])).
    { apply NoDup_app; [exact Hnd | repeat constructor; intros [] |].
      intros x Hx [<-|[]]. contradiction. }
    rewrite (plain_all_storable _ Hplain'), (distinct_of_NoDup Hnd').
    rewrite counted_plain_entries by exact Hplain'.
    rewrite map_app. simpl. f_equal.
    + apply map_ext_in. intros o Ho. do 2 f_equal.
      apply occurrences_declared; [exact Ho|]. intros ->. contradiction.
    + now rewrite occurrences_other.
Qed.

End WriteIn.

(** Options Red and Blue: a vote Green raises "Other" to 1 and is listed
    as a write-in; a vote Red raises Red, not "Other". *)
Lemma writein_poll_results_witness :
  let p := {| question := "?"; type := "mc-writein"; options := ["Red"; "Blue"] |} in
  let r := aggregate (json_runtime := label_arrays) (Own p) ["Green"; "Red"] in
  results r = [Tally "Red" (Num 1); Tally "Blue" (Num 0); Tally "Other" (Num 1)]
  /\ writeIns r = Some ["Green"].
Proof.
  intros p r. subst r.
  destruct (writein_poll_results (J := label_arrays) p ["Green"; "Red"] eq_refl)
    as (_ & Hw & _ & _ & _ & Hall).
  split; [|exact Hw].
  rewrite Hall.
  - reflexivity.
  - repeat constructor; simpl; intuition discriminate.
  - reflexivity.
  - simpl. intuition discriminate.
Defined.

(** C5, as stated, fails: when the poll itself declares an option "Other",
    a write-in raises the count of that declared option although it does
    not equal it. *)
Lemma writein_poll_other_counterexample :
  let p := {| question := "?"; type := "mc-writein"; options := ["Red"; "Other"] |} in
  let r := aggregate (json_runtime := label_arrays) (Own p) ["Green"] in
  results r = [Tally "Red" (Num 0); Tally "Other" (Num 1)]
  /\ writeIns r = Some ["Green"]
  /\ occurrences "Other" ["Green"] = 0.
Proof.
  repeat split; reflexivity.
Qed.

(** ** Broadcast *)

Lemma extend_nil (w : World) : extend w [] = w.
Proof. unfold extend. rewrite app_nil_r. now destruct w. Qed.

Lemma extend_extend (w : World) (e1 e2 : list event) :
  extend (extend w e1) e2 = extend w (e1 ++ e2).
Proof. unfold extend. simpl. now rewrite app_assoc. Qed.

Lemma for_each_deliver (d : data) (sockets : list WebSocket) :
  forall w,
    for_each sockets (fun ws => try_catch (ws_send ws d) (fun _ => ret tt)) w
    = (Returned tt, extend w (map (delivery d) sockets)).
Proof.
  induction sockets as [| ws rest IH]; intros w; simpl.
  - unfold ret. now rewrite extend_nil.
  - unfold bind, try_catch, ws_send, delivery.
    destruct (send_error ws) as [message|]; simpl; rewrite IH;
      unfold extend; simpl; now rewrite <- app_assoc.
Qed.

Lemma broadcast_spec (d : data) (w : World) :
  broadcast d w = (Returned tt, extend w (map (delivery d) (clients w))).
Proof.
  unfold broadcast, bind, read_clients. apply for_each_deliver.
Qed.

(** C10.  Every [broadcast] returns normally, whatever the sockets do; it
    attempts one delivery to every registered client, in registration
    order; and every client whose socket does not throw is sent the
    event, whether or not another client's socket threw. *)
Theorem broadcast_best_effort (d : data) (w : World) :
  exists w',
    broadcast d w = (Returned tt, w')
    /\ votes w' = votes w
    /\ clients w' = clients w
    /\ trace w' = trace w ++ map (delivery d) (clients w)
    /\ (forall ws, In ws (clients w) -> send_error ws = None ->
          In (Sent (socket_id ws) d) (trace w')).
Proof.
  exists (extend w (map (delivery d) (clients w))).
  split; [apply broadcast_spec|]. repeat split.
  intros ws Hin Hok. simpl. apply in_or_app. right.
  apply in_map_iff. exists ws. split; [|exact Hin].
  unfold delivery. now rewrite Hok.
Qed.

(** A socket that throws between two healthy ones: both are reached. *)
Lemma broadcast_best_effort_witness :
  let w := fresh [open_socket 1; broken_socket 2; open_socket 3] in
  let d := TunnelData "https://example.ngrok.app" in
  exists w',
    broadcast d w = (Returned tt, w')
    /\ trace w' = [Sent 1 d; SendThrew 2 d; Sent 3 d].
Proof.
  intros w d.
  destruct (broadcast_best_effort d w) as (w' & Hrun & _ & _ & Htrace & _).
  exists w'. split; [exact Hrun | exact Htrace].
Defined.

(** ** The vote route, case by case *)
Section VoteRoute.

Context {J : JSON} {E : Engine}.
Variable catalog : JsObject.t Poll.
Variable env : Env.

Lemma upsertVote_run_ok (p v x : string) (w : World) :
  failure env UpsertVote = None ->
  upsertVote_run env p v x w
  = (Returned tt,
     extend (with_votes w (upsert p v x (now env) (votes w))) [Ran UpsertVote true]).
Proof.
  intros Hok. unfold upsertVote_run, run. rewrite Hok. reflexivity.
Qed.

Lemma upsertVote_run_fails (p v x message : string) (w : World) :
  failure env UpsertVote = Some message ->
  upsertVote_run env p v x w
  = (Thrown message, extend w [Ran UpsertVote false]).
Proof.
  intros Hko. unfold upsertVote_run, run. rewrite Hko. reflexivity.
Qed.

Lemma aggregateResults_ok (p : string) (w : World) :
  failure env GetVotes = None ->
  aggregateResults catalog env p w
  = (Returned (current_aggregate catalog p (votes w)),
     extend w [Ran GetVotes true]).
Proof.
  intros Hok. unfold aggregateResults, getVotes_all, run. rewrite Hok.
  reflexivity.
Qed.

Lemma aggregateResults_fails (p message : string) (w : World) :
  failure env GetVotes = Some message ->
  aggregateResults catalog env p w
  = (Thrown message, extend w [Ran GetVotes false]).
Proof.
  intros Hko. unfold aggregateResults, getVotes_all, run. rewrite Hko.
  reflexivity.
Qed.

Lemma missing_string_spec (s : option string) :
  missing_string s = false <-> exists text, s = Some text /\ text <> "".
Proof.
  destruct s as [text|]; simpl.
  - destruct (String.eqb_spec text ""); split.
    + discriminate.
    + intros (t & [= <-] & Hne). contradiction.
    + intros _. now exists text.
    + reflexivity.
  - split; [discriminate | intros (t & H & _); discriminate].
Qed.

Lemma post_vote_passes (request : VoteBody) (p v : string) (x : json) :
  passes catalog request p v x ->
  post_vote catalog env request
  = try_catch
      (upsertVote_run env p v (stored_text x) ;;;
       results <- aggregateResults catalog env p ;;
       broadcast (VoteData p results) ;;;
       ret (json_reply OkReply))
      (fun message => ret (status_reply 500 (ErrorReply message))).
Proof.
  intros (Hp & Hpne & Hx & Hxt & Hv & Hvne & Hknown).
  unfold post_vote. rewrite Hp, Hx, Hv. simpl.
  destruct (String.eqb_spec p "") as [->|_]; [contradiction|].
  destruct (String.eqb_spec v "") as [->|_]; [contradiction|].
  rewrite Hxt. simpl.
  destruct (get catalog p); [contradiction | reflexivity | reflexivity].
Qed.

(** A request that fails either check is answered 400 and nothing
    else happens. *)
Lemma post_vote_rejected (request : VoteBody) (w : World) :
  (forall p v x, ~ passes catalog request p v x) ->
  exists error,
    post_vote catalog env request w
    = (Returned (status_reply 400 (ErrorReply error)), w).
Proof.
  intros Hfail. unfold post_vote.
  destruct (missing_string (poll request)) eqn:Hp; simpl; [eexists; reflexivity|].
  destruct (missing_value (value request)) eqn:Hx; simpl; [eexists; reflexivity|].
  destruct (missing_string (voterId request)) eqn:Hv; simpl; [eexists; reflexivity|].
  apply missing_string_spec in Hp, Hv.
  destruct Hp as (p & Hp & Hpne), Hv as (v & Hv & Hvne).
  rewrite Hp, Hv.
  destruct (value request) as [x|] eqn:Hval; [|discriminate].
  simpl in Hx. apply Bool.negb_false_iff in Hx.
  destruct (get catalog p) eqn:Hget; [eexists; reflexivity | |];
    exfalso; apply (Hfail p v x); unfold passes;
    rewrite Hget; repeat split; auto; discriminate.
Qed.

Lemma post_vote_storage_fails (request : VoteBody) (p v : string) (x : json)
    (message : string) (w : World) :
  passes catalog request p v x ->
  failure env UpsertVote = Some message ->
  post_vote catalog env request w
  = (Returned (status_reply 500 (ErrorReply message)),
     extend w [Ran UpsertVote false]).
Proof.
  intros Hpass Hko. rewrite (post_vote_passes Hpass).
  unfold try_catch, bind. now rewrite (upsertVote_run_fails _ _ _ _ Hko).
Qed.

Lemma post_vote_select_fails (request : VoteBody) (p v : string) (x : json)
    (message : string) (w : World) :
  passes catalog request p v x ->
  failure env UpsertVote = None ->
  failure env GetVotes = Some message ->
  post_vote catalog env request w
  = (Returned (status_reply 500 (ErrorReply message)),
     extend (with_votes w (upsert p v (stored_text x) (now env) (votes w)))
       [Ran UpsertVote true; Ran GetVotes false]).
Proof.
  intros Hpass Hok Hko. rewrite (post_vote_passes Hpass).
  unfold try_catch, bind.
  rewrite (upsertVote_run_ok _ _ _ _ Hok).
  rewrite (aggregateResults_fails _ _ Hko).
  unfold ret. now rewrite extend_extend.
Qed.

Lemma post_vote_accepted (request : VoteBody) (p v : string) (x : json)
    (w : World) :
  passes catalog request p v x ->
  failure env UpsertVote = None ->
  failure env GetVotes = None ->
  let t := upsert p v (stored_text x) (now env) (votes w) in
  post_vote catalog env request w
  = (Returned (json_reply OkReply),
     extend (with_votes w t)
       ([Ran UpsertVote true; Ran GetVotes true]
          ++ map (delivery (VoteData p (current_aggregate catalog p t)))
               (clients w))).
Proof.
  intros Hpass Hok1 Hok2 t. rewrite (post_vote_passes Hpass).
  unfold try_catch, bind.
  rewrite (upsertVote_run_ok _ _ _ _ Hok1).
  rewrite (aggregateResults_ok _ _ Hok2).
  rewrite broadcast_spec. unfold ret.
  rewrite !extend_extend. reflexivity.
Qed.

Lemma passes_or_not (request : VoteBody) :
  (exists p v x, passes catalog request p v x)
  \/ (forall p v x, ~ passes catalog request p v x).
Proof.
  unfold passes.
  destruct (poll request) as [p|]; [|right; intros p v x (H & _); discriminate].
  destruct (voterId request) as [v|];
    [|right; intros p' v x (_ & _ & _ & _ & H & _); discriminate].
  destruct (value request) as [x|];
    [|right; intros p' v' x (_ & _ & H & _); discriminate].
  destruct (String.eqb_spec p "") as [->|Hp];
    [right; intros p' v' x' ([= <-] & H & _); contradiction|].
  destruct (String.eqb_spec v "") as [->|Hv];
    [right; intros p' v' x' (_ & _ & _ & _ & [= <-] & H & _); contradiction|].
  destruct (truthy x) eqn:Hx;
    [|right; intros p' v' x' (_ & _ & [= <-] & H & _); congruence].
  destruct (get catalog p) eqn:Hget.
  - right. intros p' v' x' ([= <-] & _ & _ & _ & _ & _ & H). contradiction.
  - left. exists p, v, x. rewrite Hget. repeat split; auto; discriminate.
  - left. exists p, v, x. rewrite Hget. repeat split; auto; discriminate.
Qed.

(** Whatever happens, the table afterwards is the old one or the old
    one with one upsert. *)
Lemma submitVote_votes (request : VoteBody) (w : World) :
  votes (snd (submitVote catalog env request w)) = votes w
  \/ exists p v x,
       votes (snd (submitVote catalog env request w))
       = upsert p v x (now env) (votes w).
Proof.
  unfold submitVote, serve.
  destruct (passes_or_not request) as [(p & v & x & Hpass)|Hfail].
  - destruct (failure env UpsertVote) as [message|] eqn:Hup.
    + rewrite (post_vote_storage_fails w Hpass Hup). now left.
    + destruct (failure env GetVotes) as [message|] eqn:Hsel.
      * rewrite (post_vote_select_fails w Hpass Hup Hsel).
        right. now exists p, v, (stored_text x).
      * rewrite (post_vote_accepted w Hpass Hup Hsel).
        right. now exists p, v, (stored_text x).
  - destruct (post_vote_rejected w Hfail) as (error & ->). now left.
Qed.

End VoteRoute.

(** ** One row per (poll, voter) *)

Lemma has_key_spec (p v : string) (r : Row) :
  has_key p v r = true <-> key r = (p, v).
Proof.
  unfold has_key, key.
  destruct (String.eqb_spec (poll_id r) p), (String.eqb_spec (voter_id r) v);
    simpl; split; congruence.
Qed.

Lemma upsert_keys_present (p v x : string) (clock : nat) (t : Table) :
  In (p, v) (map key t) -> map key (upsert p v x clock t) = map key t.
Proof.
  induction t as [| r rest IH]; simpl; intros Hin; [contradiction|].
  destruct (has_key p v r) eqn:Hk; simpl.
  - reflexivity.
  - f_equal. apply IH. destruct Hin as [Heq|Hin]; [|exact Hin].
    apply has_key_spec in Heq. congruence.
Qed.

Lemma upsert_keys_absent (p v x : string) (clock : nat) (t : Table) :
  ~ In (p, v) (map key t) ->
  upsert p v x clock t
  = t ++ [ {| poll_id := p; voter_id := v; Votes.value := x; created_at := clock |} ].
Proof.
  induction t as [| r rest IH]; simpl; intros Hout; [reflexivity|].
  destruct (has_key p v r) eqn:Hk.
  - exfalso. apply Hout. left. now apply has_key_spec.
  - f_equal. apply IH. intros Hin. apply Hout. now right.
Qed.

Lemma upsert_overwrites (p v x : string) (clock : nat) (t : Table) :
  unique_keys t -> In (p, v) (map key t) ->
  upsert p v x clock t = map (overwrite p v x clock) t.
Proof.
  unfold unique_keys.
  induction t as [| r rest IH]; simpl; intros Hnd Hin; [contradiction|].
  inversion Hnd as [| k ks Hout Hnd' ]; subst.
  unfold overwrite at 1.
  destruct (has_key p v r) eqn:Hk.
  - f_equal. symmetry. rewrite <- (map_id rest) at 2.
    apply map_ext_in. intros r' Hr'. unfold overwrite.
    destruct (has_key p v r') eqn:Hk'; [|reflexivity].
    exfalso. apply Hout. apply has_key_spec in Hk, Hk'.
    rewrite Hk, <- Hk'. now apply in_map.
  - f_equal. apply IH; [exact Hnd'|].
    destruct Hin as [Heq|Hin]; [|exact Hin].
    apply has_key_spec in Heq. congruence.
Qed.

Lemma upsert_unique (p v x : string) (clock : nat) (t : Table) :
  unique_keys t -> unique_keys (upsert p v x clock t).
Proof.
  unfold unique_keys. intros Hnd.
  assert (dec : forall a b : string * string, {a = b} + {a <> b})
    by (decide equality; apply string_dec).
  destruct (in_dec dec (p, v) (map key t)) as [Hin|Hout].
  - now rewrite upsert_keys_present.
  - rewrite upsert_keys_absent, map_app by exact Hout. simpl.
    apply NoDup_app; [exact Hnd | repeat constructor; intros [] |].
    intros k Hk [<-|[]]. contradiction.
Qed.

Lemma overwrite_poll (p v x : string) (clock : nat) (r : Row) :
  poll_id (overwrite p v x clock r) = poll_id r.
Proof. unfold overwrite. now destruct (has_key p v r). Qed.

Lemma of_poll_overwrite (q p v x : string) (clock : nat) (t : Table) :
  of_poll q (map (overwrite p v x clock) t)
  = map (overwrite p v x clock) (of_poll q t).
Proof.
  unfold of_poll. induction t as [| r rest IH]; simpl; [reflexivity|].
  rewrite overwrite_poll.
  destruct (String.eqb (poll_id r) q); simpl; now rewrite IH.
Qed.

Lemma total_by_length {J : JSON} (found : lookup Poll) (rows rows' : list string) :
  List.length rows = List.length rows' ->
  total (aggregate found rows) = total (aggregate found rows').
Proof.
  intros Hlen. unfold aggregate.
  destruct found as [| p |]; simpl; [reflexivity | | exact Hlen].
  destruct (String.eqb (type p) "open"); [exact Hlen|].
  destruct (String.eqb (type p) "multi"); [exact Hlen|].
  destruct (String.eqb (type p) "mc-writein").
  - destruct (fold_left _ rows _), (fold_left _ rows' _). exact Hlen.
  - destruct (String.eqb (type p) "likert"); exact Hlen.
Qed.

Lemma current_total_length {J : JSON} {E : Engine} (catalog : JsObject.t Poll)
    (q : string) (t t' : Table) :
  List.length (of_poll q t) = List.length (of_poll q t') ->
  total (current_aggregate catalog q t) = total (current_aggregate catalog q t').
Proof.
  intros Hlen. unfold current_aggregate. apply total_by_length.
  rewrite !length_map.
  rewrite (Permutation_length (row_order_perm (of_poll q t))).
  rewrite (Permutation_length (row_order_perm (of_poll q t'))).
  exact Hlen.
Qed.

Section Upserts.

Context {J : JSON} {E : Engine}.
Variable catalog : JsObject.t Poll.

Lemma submit_all_unique (requests : list (Env * VoteBody)) :
  forall w, unique_keys (votes w) ->
            unique_keys (votes (submit_all catalog requests w)).
Proof.
  unfold submit_all.
  induction requests as [| [env request] rest IH]; intros w Hu; simpl.
  - exact Hu.
  - apply IH.
    destruct (submitVote_votes catalog env request w) as [->|(p & v & x & ->)].
    + exact Hu.
    + now apply upsert_unique.
Qed.

Lemma submitVote_stores (env : Env) (request : VoteBody) (p v : string)
    (x : json) (w : World) :
  passes catalog request p v x ->
  failure env UpsertVote = None ->
  votes (snd (submitVote catalog env request w))
  = upsert p v (stored_text x) (now env) (votes w).
Proof.
  intros Hpass Hup. unfold submitVote, serve.
  destruct (failure env GetVotes) as [message|] eqn:Hsel.
  - now rewrite (post_vote_select_fails env w Hpass Hup Hsel).
  - now rewrite (post_vote_accepted env w Hpass Hup Hsel).
Qed.

(** C1.  Whatever POST /api/vote requests arrive and whatever the
    storage layer does to them, a table with at most one row per
    (poll, voter) keeps at most one row per (poll, voter).  A submission
    by a voter who already has a row for the poll, once its upsert has
    run, leaves that row in place with the new value and the new
    timestamp and every other row as it was: no row is added, and the
    total reported for any poll is what it was before. *)
Theorem one_row_per_voter :
  (forall requests w,
      unique_keys (votes w) ->
      unique_keys (votes (submit_all catalog requests w)))
  /\ (forall env request p v x w,
        unique_keys (votes w) ->
        passes catalog request p v x ->
        In (p, v) (map key (votes w)) ->
        failure env UpsertVote = None ->
        let w' := snd (submitVote catalog env request w) in
        votes w' = map (overwrite p v (stored_text x) (now env)) (votes w)
        /\ List.length (votes w') = List.length (votes w)
        /\ (forall q, total (current_aggregate catalog q (votes w'))
                      = total (current_aggregate catalog q (votes w)))).
Proof.
  split; [exact submit_all_unique|].
  intros env request p v x w Hu Hpass Hin Hup w'. subst w'.
  rewrite (submitVote_stores env w Hpass Hup).
  rewrite upsert_overwrites by assumption.
  split; [reflexivity|]. split; [apply length_map|].
  intros q. apply current_total_length.
  now rewrite of_poll_overwrite, length_map.
Qed.

End Upserts.

(** Amy answers poll 1, then changes her answer: still one row, with the
    new value and the new timestamp. *)
Lemma one_row_per_voter_witness :
  let w := {| votes := [ {| poll_id := "1"; voter_id := "amy";
                            Votes.value := "Yes, regularly"; created_at := 10 |} ];
              clients := []; trace := [] |} in
  let request := {| poll := Some "1"; value := Some (JStr "What's AI?");
                    voterId := Some "amy" |} in
  votes (snd (submitVote (json_runtime := label_arrays) (engine := rowid_engine)
                POLLS (healthy 20) request w))
  = [ {| poll_id := "1"; voter_id := "amy";
         Votes.value := "What's AI?"; created_at := 20 |} ].
Proof.
  intros w request.
  destruct (one_row_per_voter (J := label_arrays) (E := rowid_engine) POLLS)
    as [_ Hagain].
  destruct (Hagain (healthy 20) request "1" "amy" (JStr "What's AI?") w)
    as [Hvotes _].
  - repeat constructor. simpl. tauto.
  - unfold passes. simpl. repeat split; discriminate.
  - simpl. now left.
  - reflexivity.
  - exact Hvotes.
Defined.

(** ** Free text *)
Section FreeText.

Context {J : JSON}.
Variable catalog : JsObject.t Poll.
Variable p : string.

Lemma text_vote_passes (s : string * string * nat) :
  get catalog p <> Undefined -> p <> "" ->
  voter_of s <> "" -> text_of s <> "" ->
  passes catalog (snd (text_vote p s)) p (voter_of s) (JStr (text_of s)).
Proof.
  destruct s as [[voter text] clock]. unfold passes, voter_of, text_of. simpl.
  intros Hknown Hp Hv Ht. repeat split; auto.
  destruct (String.eqb_spec text ""); [contradiction | reflexivity].
Qed.





End FreeText.



(** Listed through the index, the texts follow the voter ids, not the
    time of submission: Zed answers before Amy and still comes first. *)
Example free_text_index_order :
  let subs := [("zed", "first", 1); ("amy", "second", 2)] in
  results
    (current_aggregate (json_runtime := label_arrays) (engine := index_engine)
       POLLS "2"
       (votes (submit_all (json_runtime := label_arrays) (engine := index_engine)
                 POLLS (map (text_vote "2") subs) (fresh []))))
  = [Raw "first"; Raw "second"].
Proof. reflexivity. Qed.

(** ** Validation *)


(** C7 (the code departs from it).  A vote for the poll id "constructor",
    which is no key of [POLLS], is not rejected: [POLLS[poll]] finds the
    member inherited from [Object.prototype], so the row is stored, an
    aggregate is broadcast and the submitter is answered 200. *)
Theorem unregistered_poll_accepted :
  let request := {| poll := Some "constructor"; value := Some (JStr "x");
                    voterId := Some "v" |} in
  own_get "constructor" POLLS = None
  /\ submitVote (json_runtime := label_arrays) (engine := rowid_engine)
       POLLS (healthy 7) request (fresh [open_socket 1])
     = ({| status := 200; body := OkReply |},
        {| votes := [ {| poll_id := "constructor"; voter_id := "v";
                         Votes.value := "x"; created_at := 7 |} ];
           clients := [open_socket 1];
           trace := [ Ran UpsertVote true; Ran GetVotes true;
                      Sent 1 (VoteData "constructor"
                                {| total := 1;
                                   results := [Tally "x" (Num 1)];
                                   writeIns := None; average := None |}) ] |}).
Proof.
  split; reflexivity.
Qed.

(** ** Storage failure *)

(** C8.  When the request gets past validation and the upsert fails, the
    submitter is answered 500 with the storage layer's message; the
    upsert was attempted once and nothing else ran: the table and the
    clients are as they were and no event was sent to any client. *)
Theorem storage_failure_surfaced {J : JSON} {E : Engine}
    (catalog : JsObject.t Poll) (env : Env) (request : VoteBody)
    (p v : string) (x : json) (message : string) (w : World) :
  passes catalog request p v x ->
  failure env UpsertVote = Some message ->
  submitVote catalog env request w
  = ({| status := 500; body := ErrorReply message |},
     {| votes := votes w; clients := clients w;
        trace := trace w ++ [Ran UpsertVote false] |}).
Proof.
  intros Hpass Hko. unfold submitVote, serve.
  now rewrite (post_vote_storage_fails env w Hpass Hko).
Qed.

Lemma storage_failure_surfaced_witness :
  let env := {| failure := fun s => match s with
                                    | UpsertVote => Some "database is locked"
                                    | _ => None
                                    end;
                now := 5 |} in
  let request := {| poll := Some "1"; value := Some (JStr "Yes, regularly");
                    voterId := Some "amy" |} in
  submitVote (json_runtime := label_arrays) (engine := rowid_engine)
    POLLS env request (fresh [open_socket 1])
  = ({| status := 500; body := ErrorReply "database is locked" |},
     {| votes := []; clients := [open_socket 1];
        trace := [Ran UpsertVote false] |}).
Proof.
  intros env request.
  apply (@storage_failure_surfaced label_arrays rowid_engine POLLS env request
           "1" "amy" (JStr "Yes, regularly") "database is locked"
           (fresh [open_socket 1])).
  - unfold passes. simpl. repeat split; discriminate.
  - reflexivity.
Defined.

(** ** Reset *)

Lemma tallies_counted_zero (labels : list string) (it : item) :
  In it (tallies (counted labels (fun _ => 0))) ->
  exists label, In label labels /\ it = Tally label (Num 0).
Proof.
  unfold tallies. intros Hin. apply in_map_iff in Hin.
  destruct Hin as ([k c] & <- & Hin).
  apply (Permutation_in _ (entries_perm _)) in Hin.
  unfold counted in Hin. apply in_map_iff in Hin.
  destruct Hin as (label & [= <- <-] & Hlabel).
  now exists label.
Qed.

Lemma counted_zero_tallies (labels : list string) (label : string) :
  In label labels -> In (Tally label (Num 0)) (tallies (counted labels (fun _ => 0))).
Proof.
  intros Hin. unfold tallies.
  apply (in_map (fun e => Tally (fst e) (snd e)) _ (label, Num 0)).
  apply (Permutation_in _ (Permutation_sym (entries_perm _))).
  unfold counted. now apply (in_map (fun l => (l, Num 0))).
Qed.

(** The aggregate of a poll without votes. *)
Lemma aggregate_nothing {J : JSON} (found : lookup Poll) :
  total (aggregate found []) = 0
  /\ (forall it, In it (results (aggregate found [])) ->
        exists label, it = Tally label (Num 0))
  /\ (forall poll o, found = Own poll -> type poll <> "open" ->
        In o (options poll) -> o <> "__proto__" ->
        In (Tally o (Num 0)) (results (aggregate found []))).
Proof.
  assert (Hzero : forall opts it,
             In it (tallies (zero_counts opts)) -> exists label, it = Tally label (Num 0)).
  { intros opts it Hin. rewrite zero_counts_shape in Hin.
    apply tallies_counted_zero in Hin. destruct Hin as (label & _ & ->).
    now exists label. }
  assert (Hlisted : forall opts o,
             In o opts -> o <> "__proto__" ->
             In (Tally o (Num 0)) (tallies (zero_counts opts))).
  { intros opts o Ho Hproto. rewrite zero_counts_shape.
    apply counted_zero_tallies, distinct_In, filter_In.
    split; [exact Ho | now apply storable_spec]. }
  assert (Hother : forall opts,
             set (zero_counts opts) "Other" (Num 0) = zero_counts (opts ++ ["Other"])).
  { intros opts. unfold zero_counts. now rewrite fold_left_app. }
  unfold aggregate.
  destruct found as [| p |]; simpl.
  - repeat split; [intros it [] | discriminate].
  - destruct (String.eqb_spec (type p) "open") as [Hopen|Hopen]; simpl.
    { repeat split; [intros it [] |]. intros poll o [= <-]. contradiction. }
    destruct (String.eqb (type p) "multi"); simpl.
    { repeat split; [apply Hzero|]. intros poll o [= <-] _. apply Hlisted. }
    destruct (String.eqb (type p) "mc-writein"); simpl.
    { rewrite Hother. repeat split; [apply Hzero|].
      intros poll o [= <-] _ Ho. apply Hlisted, in_or_app. now left. }
    destruct (String.eqb (type p) "likert"); simpl;
      (repeat split; [apply Hzero|]; intros poll o [= <-] _; apply Hlisted).
  - repeat split; [intros it [] | discriminate].
Qed.

Lemma row_order_nil {E : Engine} : row_order [] = [].
Proof. apply Permutation_nil, Permutation_sym, row_order_perm. Qed.

Section Reset.

Context {J : JSON} {E : Engine}.
Variable catalog : JsObject.t Poll.
Variable env : Env.
Hypothesis storage_works : forall s, failure env s = None.

Lemma reset_loop (pids : list string) :
  forall w,
    votes w = [] ->
    for_each pids
      (fun pid =>
         results <- aggregateResults catalog env pid ;;
         broadcast (VoteData pid results)) w
    = (Returned tt,
       extend w
         (flat_map
            (fun pid =>
               Ran GetVotes true
               :: map (delivery (VoteData pid (aggregate (get catalog pid) [])))
                    (clients w))
            pids)).
Proof.
  induction pids as [| pid rest IH]; intros w Hempty; simpl.
  - unfold ret. now rewrite extend_nil.
  - unfold bind at 1 2.
    rewrite (aggregateResults_ok catalog env pid w (storage_works GetVotes)).
    rewrite broadcast_spec.
    rewrite IH by exact Hempty.
    rewrite !extend_extend. simpl.
    unfold current_aggregate. rewrite Hempty. simpl. rewrite row_order_nil.
    reflexivity.
Qed.

Lemma get_reset_spec (w : World) :
  get_reset catalog env w
  = (Returned (json_reply (OkMessage "All votes cleared")),
     extend (with_votes w [])
       (Ran ClearAll true
        :: flat_map
             (fun pid =>
                Ran GetVotes true
                :: map (delivery (VoteData pid (aggregate (get catalog pid) [])))
                     (clients w))
             (keys catalog))).
Proof.
  unfold get_reset, clearAll_run, run. rewrite (storage_works ClearAll).
  unfold bind at 1 2 3. simpl.
  rewrite reset_loop by reflexivity.
  unfold ret, extend, with_votes. simpl.
  now rewrite <- app_assoc.
Qed.

End Reset.

Lemma keys_of_catalog {V : Type} (o : JsObject.t V) :
  NoDup (map fst o) ->
  NoDup (keys o) /\ (forall k, In k (keys o) <-> In k (map fst o)).
Proof.
  intros Hnd. unfold keys.
  pose proof (Permutation_map fst (entries_perm o)) as Hperm.
  split.
  - apply (Permutation_NoDup (Permutation_sym Hperm) Hnd).
  - intros k. split; intros Hin.
    + apply (Permutation_in _ Hperm Hin).
    + apply (Permutation_in _ (Permutation_sym Hperm) Hin).
Qed.

(** C9 (amended).  With the storage layer working, GET /api/reset empties
    the table and then, for each key of the catalog in turn, recomputes
    the poll's aggregate and hands it to [broadcast] once, as an event of
    type "vote" (the only type the server has for aggregates): one event
    per known poll, each poll once.  Every aggregate so published has
    [total] 0 and nothing but zero counts, and lists every declared
    option (other than [__proto__]) of every poll that is not free-text
    with count 0; a free-text poll publishes an empty list. *)
Theorem reset_publishes_every_poll {J : JSON} {E : Engine}
    (catalog : JsObject.t Poll) (env : Env) (w : World) :
  (forall s, failure env s = None) ->
  NoDup (map fst catalog) ->
  let cleared pid := VoteData pid (aggregate (get catalog pid) []) in
  reset catalog env w
  = (json_reply (OkMessage "All votes cleared"),
     {| votes := [];
        clients := clients w;
        trace := trace w
                 ++ Ran ClearAll true
                    :: flat_map
                         (fun pid =>
                            Ran GetVotes true
                            :: map (delivery (cleared pid)) (clients w))
                         (keys catalog) |})
  /\ NoDup (keys catalog)
  /\ (forall pid, In pid (keys catalog) <-> In pid (map fst catalog))
  /\ (forall pid,
        data_type (cleared pid) = "vote"
        /\ total (aggregate (get catalog pid) []) = 0
        /\ (forall it, In it (results (aggregate (get catalog pid) [])) ->
              exists label, it = Tally label (Num 0)))
  /\ (forall pid poll o,
        get catalog pid = Own poll -> type poll <> "open" ->
        In o (options poll) -> o <> "__proto__" ->
        In (Tally o (Num 0)) (results (aggregate (get catalog pid) []))).
Proof.
  intros Hworks Hnd cleared.
  split; [|split; [|split; [|split]]].
  - unfold reset, serve. now rewrite (get_reset_spec catalog env Hworks).
  - now apply keys_of_catalog.
  - now apply keys_of_catalog.
  - intros pid. split; [reflexivity|].
    destruct (aggregate_nothing (get catalog pid)) as (Ht & Hz & _).
    now split.
  - intros pid poll o Hget.
    destruct (aggregate_nothing (get catalog pid)) as (_ & _ & Hl).
    now apply Hl.
Qed.

(** A reset of a table with one vote, one client listening: the table is
    empty afterwards and the client was sent six events, one per poll. *)
Lemma reset_publishes_every_poll_witness :
  let w := {| votes := [ {| poll_id := "1"; voter_id := "amy";
                            Votes.value := "Yes, regularly"; created_at := 10 |} ];
              clients := [open_socket 1]; trace := [] |} in
  let after := reset (json_runtime := label_arrays) (engine := rowid_engine)
                 POLLS (healthy 11) w in
  fst after = json_reply (OkMessage "All votes cleared")
  /\ votes (snd after) = []
  /\ List.length (sent_types (trace (snd after))) = 6
  /\ NoDup (keys POLLS).
Proof.
  intros w after. subst after.
  destruct (@reset_publishes_every_poll label_arrays rowid_engine POLLS
              (healthy 11) w) as (Hrun & Hkeys & _).
  - reflexivity.
  - repeat constructor; simpl; intuition discriminate.
  - rewrite Hrun. repeat split. exact Hkeys.
Defined.

(** C9, as stated, fails: what a reset publishes cannot be told from a
    vote update.  Every event it sends has type "vote"; none has a type
    of its own. *)
Lemma reset_event_type_counterexample :
  let w := {| votes := [ {| poll_id := "1"; voter_id := "amy";
                            Votes.value := "Yes, regularly"; created_at := 10 |} ];
              clients := [open_socket 1]; trace := [] |} in
  let after := reset (json_runtime := label_arrays) (engine := rowid_engine)
                 POLLS (healthy 11) w in
  sent_types (trace (snd after))
  = ["vote"; "vote"; "vote"; "vote"; "vote"; "vote"]
  /\ ~ In "reset" (sent_types (trace (snd after))).
Proof.
  split; [vm_compute; reflexivity|].
  intros Hin. vm_compute in Hin.
  repeat (destruct Hin as [Hin|Hin]; [discriminate|]).
  exact Hin.
Qed.

(** ** The rating average *)
Section RatingArithmetic.

Local Open Scope Z_scope.

Lemma round_div_near (num den : Z) :
  0 <= num -> 0 < den ->
  Z.abs (2 * (num - round_div num den * den)) <= den
  /\ num / den <= round_div num den.
Proof.
  intros Hnum Hden. unfold round_div.
  pose proof (Z.div_mod num den ltac:(lia)) as Hdm.
  pose proof (Z.mod_pos_bound num den Hden) as Hr.
  destruct ((den <? 2 * (num mod den))
            || ((2 * (num mod den) =? den) && Z.odd (num / den))) eqn:Hup.
  - assert (den <= 2 * (num mod den)).
    { apply Bool.orb_true_iff in Hup. destruct Hup as [H|H].
      - apply Z.ltb_lt in H. lia.
      - apply Bool.andb_true_iff in H. destruct H as [H _].
        apply Z.eqb_eq in H. lia. }
    split; nia.
  - apply Bool.orb_false_iff in Hup. destruct Hup as [H _].
    apply Z.ltb_ge in H. split; nia.
Qed.

Lemma tenths_floor (m k : Z) :
  0 <= m -> 0 < k ->
  2 ^ k * (2 * tenths_of m (- k)) <= 20 * m + 2 ^ k
  /\ 20 * m + 2 ^ k < 2 ^ k * (2 * (tenths_of m (- k) + 1))
  /\ 0 <= tenths_of m (- k).
Proof.
  intros Hm Hk. unfold tenths_of.
  destruct (Z.leb_spec 0 (- k)) as [H|_]; [lia|].
  rewrite Z.opp_involutive, Z.abs_eq by exact Hm.
  assert (Hp : 0 < 2 ^ k) by (apply Z.pow_pos_nonneg; lia).
  rewrite Z.pow_add_r, Z.pow_1_r by lia.
  pose proof (Z.div_mod (20 * m + 2 ^ k) (2 ^ k * 2) ltac:(lia)) as Hdm.
  pose proof (Z.mod_pos_bound (20 * m + 2 ^ k) (2 ^ k * 2) ltac:(lia)) as Hr.
  assert (0 <= (20 * m + 2 ^ k) / (2 ^ k * 2)) by (apply Z.div_pos; lia).
  repeat split; nia.
Qed.

Lemma nearest_ratio_safe (s n : Z) :
  s <> 0 -> 0 < n < 2 ^ 53 -> 20 * Z.abs s < 2 ^ 53 ->
  exists m k,
    nearest_ratio s n = (Z.sgn s * m, - k)
    /\ 0 < k /\ 0 < m
    /\ 2 ^ 52 * n <= Z.abs s * 2 ^ k
    /\ Z.abs (2 * (Z.abs s * 2 ^ k - m * n)) <= n.
Proof.
  intros Hs Hn Hsafe. unfold nearest_ratio.
  set (a := Z.abs s) in *.
  assert (Ha : 0 < a) by (subst a; lia).
  destruct (Z.eqb_spec a 0) as [H0|_]; [lia|].
  pose proof (Z.log2_spec a Ha) as Hla.
  pose proof (Z.log2_spec n ltac:(lia)) as Hln.
  pose proof (Z.log2_nonneg a) as Hla0.
  pose proof (Z.log2_nonneg n) as Hln0.
  assert (Hla49 : Z.log2 a < 49).
  { apply Z.log2_lt_pow2; [exact Ha|]. change (2 ^ 53) with (16 * 2 ^ 49) in Hsafe.
    lia. }
  assert (Hln53 : Z.log2 n < 53) by (apply Z.log2_lt_pow2; lia).
  set (e0 := Z.log2 a - Z.log2 n - 53).
  assert (He0 : -105 <= e0 <= -5) by (subst e0; lia).
  destruct (Z.leb_spec 0 e0) as [H|_]; [lia|].
  assert (Hbase : 2 ^ 53 * n <= 2 * (a * 2 ^ (- e0))).
  { replace (- e0) with (52 + Z.log2 n + 1 - Z.log2 a) by (subst e0; lia).
    assert (Hsplit : 2 ^ Z.log2 a * 2 ^ (52 + Z.log2 n + 1 - Z.log2 a)
                     = 2 ^ 52 * 2 ^ Z.succ (Z.log2 n)).
    { rewrite <- !Z.pow_add_r by lia. f_equal. lia. }
    assert (0 < 2 ^ (52 + Z.log2 n + 1 - Z.log2 a))
      by (apply Z.pow_pos_nonneg; lia).
    nia. }
  destruct (Z.leb_spec (2 ^ 53) (a * 2 ^ (- e0) / n)) as [Hbig|Hsmall].
  - (* one more bit: the exponent is e0 + 1 *)
    rewrite Z.max_l by lia.
    destruct (Z.leb_spec 0 (e0 + 1)) as [H|_]; [lia|].
    exists (round_div (a * 2 ^ (- (e0 + 1))) n), (- (e0 + 1)).
    rewrite Z.opp_involutive.
    assert (Hpow : 2 ^ (- e0) = 2 * 2 ^ (- (e0 + 1))).
    { replace (- e0) with (Z.succ (- (e0 + 1))) by lia.
      apply Z.pow_succ_r. lia. }
    assert (Hp : 0 < 2 ^ (- (e0 + 1))) by (apply Z.pow_pos_nonneg; lia).
    assert (Hge : 2 ^ 52 * n <= a * 2 ^ (- (e0 + 1))).
    { pose proof (Z.mul_div_le (a * 2 ^ (- e0)) n ltac:(lia)) as Hmd.
      rewrite Hpow in Hmd, Hbig. nia. }
    destruct (@round_div_near (a * 2 ^ (- (e0 + 1))) n ltac:(nia) ltac:(lia))
      as [Hnear Hfloor].
    assert (2 ^ 52 <= a * 2 ^ (- (e0 + 1)) / n)
      by (apply Z.div_le_lower_bound; lia).
    repeat split; lia.
  - rewrite Z.max_l by lia.
    destruct (Z.leb_spec 0 e0) as [H|_]; [lia|].
    exists (round_div (a * 2 ^ (- e0)) n), (- e0).
    rewrite Z.opp_involutive.
    assert (Hp : 0 < 2 ^ (- e0)) by (apply Z.pow_pos_nonneg; lia).
    assert (Hge : 2 ^ 52 * n <= a * 2 ^ (- e0)).
    { change (2 ^ 53) with (2 * 2 ^ 52) in Hbase. lia. }
    destruct (@round_div_near (a * 2 ^ (- e0)) n ltac:(nia) ltac:(lia))
      as [Hnear Hfloor].
    assert (2 ^ 52 <= a * 2 ^ (- e0) / n)
      by (apply Z.div_le_lower_bound; lia).
    repeat split; lia.
Qed.

End RatingArithmetic.

Section RatingAverage.

Local Open Scope Z_scope.

Lemma of_integer_small (z : Z) : Z.abs z < 2 ^ 53 -> of_integer z = Int z.
Proof.
  intros Hz. unfold of_integer.
  destruct (Z.ltb_spec (Z.abs z) (2 ^ 53)) as [_|H]; [reflexivity | lia].
Qed.

Lemma of_integer_not_NaN (z : Z) : isNaN (of_integer z) = false.
Proof.
  unfold of_integer.
  destruct (Z.abs z <? 2 ^ 53); [reflexivity|].
  destruct (2 ^ 1024 <=? _); [|reflexivity].
  now destruct (z <? 0).
Qed.

Lemma isNaN_parseInt (v : string) : isNaN (parseInt v) = negb (parseable v).
Proof.
  unfold parseInt, parseable.
  destruct (integer_prefix v) as [z|]; [apply of_integer_not_NaN | reflexivity].
Qed.

Lemma likert_fold_skip (rows : list string) :
  forall acc,
    fold_left likert_step rows acc
    = fold_left likert_step (filter parseable rows) acc.
Proof.
  induction rows as [| v rest IH]; intros acc; simpl; [reflexivity|].
  destruct (parseable v) eqn:Hv; simpl; [apply IH|].
  rewrite <- IH. f_equal. unfold likert_step.
  now rewrite isNaN_parseInt, Hv.
Qed.

Lemma parsed_none (rows : list string) :
  parsed_integers rows = [] -> filter parseable rows = [].
Proof.
  unfold parsed_integers, parseable.
  induction rows as [| v rest IH]; simpl; [reflexivity|].
  destruct (integer_prefix v); simpl; [discriminate | exact IH].
Qed.

Lemma sum_abs_nonneg (zs : list Z) : 0 <= sum_abs zs.
Proof. induction zs as [| z rest IH]; simpl; lia. Qed.

Lemma sum_abs_bound (zs : list Z) : Z.abs (sum_Z zs) <= sum_abs zs.
Proof. induction zs as [| z rest IH]; simpl; lia. Qed.

(** While the running sum stays below 2^53 it is exact. *)
Lemma likert_fold_exact (rows : list string) :
  forall (s0 : Z) (n0 : nat),
    Z.abs s0 + sum_abs (parsed_integers rows) < 2 ^ 53 ->
    fold_left likert_step rows (Int s0, n0)
    = (Int (s0 + sum_Z (parsed_integers rows)),
       (n0 + List.length (parsed_integers rows))%nat).
Proof.
  induction rows as [| v rest IH]; intros s0 n0 Hsafe; simpl.
  - now rewrite Z.add_0_r, Nat.add_0_r.
  - unfold likert_step at 2, parseInt.
    unfold parsed_integers in *. simpl in *.
    destruct (integer_prefix v) as [z|]; simpl in *.
    + pose proof (sum_abs_nonneg
                    (flat_map (fun v => match integer_prefix v with
                                        | Some z => [z]
                                        | None => []
                                        end) rest)) as Hpos.
      rewrite (of_integer_small z) by lia. simpl.
      rewrite (of_integer_small (s0 + z)) by lia.
      rewrite IH by lia.
      f_equal; [f_equal; lia | lia].
    + now apply IH.
Qed.

Lemma tenths_of_abs (m e : Z) : tenths_of m e = tenths_of (Z.abs m) e.
Proof. unfold tenths_of. now rewrite Z.abs_idemp. Qed.

(** Within the exact range, [toFixed(1)] of the quotient prints a tenth
    nearest to the exact mean. *)
Lemma average_nearest_tenth (s n : Z) :
  0 < n < 2 ^ 53 -> 20 * Z.abs s < 2 ^ 53 ->
  exists d,
    toFixed1 (divide (Int s) n) = fixed1 (s <? 0) d
    /\ 0 <= d
    /\ Z.abs (20 * Z.abs s - 2 * d * n) <= n.
Proof.
  intros Hn Hsafe. unfold divide.
  destruct (Z.eq_dec s 0) as [->|Hs].
  - exists 0. split; [reflexivity | lia].
  - destruct (nearest_ratio_safe Hs Hn Hsafe)
      as (m & k & -> & Hk & Hm & Hge & Hnear).
    exists (tenths_of m (- k)).
    destruct (@tenths_floor m k ltac:(lia) Hk) as (Hlo & Hhi & Hd0).
    split; [|split; [exact Hd0|]].
    + unfold toFixed1.
      destruct (Z.leb_spec 0 (- k)) as [H|_]; [lia|]. simpl.
      rewrite (tenths_of_abs (Z.sgn s * m)).
      replace (Z.abs (Z.sgn s * m)) with m by nia.
      f_equal.
      destruct (Z.ltb_spec (Z.sgn s * m) 0), (Z.ltb_spec s 0); try reflexivity; nia.
    + set (a := Z.abs s) in *. set (d := tenths_of m (- k)) in *.
      set (P := 2 ^ k) in *.
      assert (HP : 0 < P) by (subst P; apply Z.pow_pos_nonneg; lia).
      assert (Hwide : 10 * n < P).
      { change (2 ^ 53) with (2 * 2 ^ 52) in Hsafe.
        assert (20 * (2 ^ 52 * n) < 2 * 2 ^ 52 * P) by nia.
        nia. }
      assert (Hup : P * (20 * a - 2 * d * n) < P * (n + 1)) by nia.
      assert (Hdown : P * (- (n + 1)) < P * (20 * a - 2 * d * n)) by nia.
      apply Z.mul_lt_mono_pos_l in Hup, Hdown; try exact HP. lia.
Qed.

Lemma nearest_tenth_unique (a n d : Z) :
  0 < n -> 0 <= a ->
  Z.abs (20 * a - 2 * d * n) <= n ->
  (20 * a + n) mod (2 * n) <> 0 ->
  d = (20 * a + n) / (2 * n).
Proof.
  intros Hn Ha Hd Htie.
  pose proof (Z.div_mod (20 * a + n) (2 * n) ltac:(lia)) as Hdm.
  pose proof (Z.mod_pos_bound (20 * a + n) (2 * n) ltac:(lia)) as Hr.
  set (q := (20 * a + n) / (2 * n)) in *.
  set (r := (20 * a + n) mod (2 * n)) in *.
  assert (d <= q) by nia.
  assert (q <= d) by nia.
  lia.
Qed.

End RatingAverage.

Lemma likert_average_exact (rows : list string) :
  parsed_integers rows <> [] ->
  (20 * sum_abs (parsed_integers rows) < 2 ^ 53)%Z ->
  likert_average rows
  = toFixed1 (divide (Int (sum_Z (parsed_integers rows)))
                (Z.of_nat (List.length (parsed_integers rows)))).
Proof.
  intros Hsome Hsafe. unfold likert_average.
  pose proof (sum_abs_nonneg (parsed_integers rows)) as Hpos.
  rewrite likert_fold_exact by (simpl; lia). simpl.
  destruct (parsed_integers rows) as [| z rest]; [contradiction|].
  reflexivity.
Qed.

(** C4 (amended).  For every rating-scale poll, [average] is computed
    from the stored values [parseInt] can read, and only from them: the
    others enter neither the sum nor the count.  It is "0.0" when no
    stored value can be read.  When there are fewer than 2^53 readable
    values and twenty times the sum of their magnitudes stays below 2^53,
    so that the sum is exact, [average] prints a tenth nearest to the
    exact mean of the integers read, with one decimal; it is the exact
    mean rounded to one decimal place whenever the mean does not lie
    exactly halfway between two tenths (a tie may go either way, since
    the quotient is rounded to a double first). *)
Theorem rating_average {J : JSON} (p : Poll) (rows : list string) :
  type p = "likert" ->
  let zs := parsed_integers rows in
  let s := sum_Z zs in
  let n := Z.of_nat (List.length zs) in
  average (aggregate (Own p) rows) = Some (likert_average rows)
  /\ likert_average rows = likert_average (filter parseable rows)
  /\ (zs = [] -> likert_average rows = "0.0")
  /\ (zs <> [] -> (n < 2 ^ 53)%Z -> (20 * sum_abs zs < 2 ^ 53)%Z ->
      exists d,
        likert_average rows = fixed1 (s <? 0)%Z d
        /\ (0 <= d)%Z
        /\ (Z.abs (20 * Z.abs s - 2 * d * n) <= n)%Z
        /\ ((20 * Z.abs s + n) mod (2 * n) <> 0 ->
            likert_average rows = spec_average rows)%Z).
Proof.
  intros Hty zs s n. subst zs s n.
  split; [|split; [|split]].
  - unfold aggregate. rewrite Hty. reflexivity.
  - unfold likert_average. now rewrite likert_fold_skip.
  - intros Hnone. unfold likert_average.
    now rewrite likert_fold_skip, (parsed_none _ Hnone).
  - intros Hsome Hcount Hsafe.
    pose proof (sum_abs_bound (parsed_integers rows)) as Hbound.
    assert (Hn : (0 < Z.of_nat (List.length (parsed_integers rows)) < 2 ^ 53)%Z).
    { split; [|exact Hcount].
      destruct (parsed_integers rows); [contradiction | simpl; lia]. }
    destruct (@average_nearest_tenth (sum_Z (parsed_integers rows))
                (Z.of_nat (List.length (parsed_integers rows))) Hn ltac:(lia))
      as (d & Hprint & Hd0 & Hnear).
    exists d. rewrite (likert_average_exact _ Hsome Hsafe).
    split; [exact Hprint|]. split; [exact Hd0|]. split; [exact Hnear|].
    intros Htie. rewrite Hprint. unfold spec_average.
    destruct (parsed_integers rows) as [| z rest] eqn:Hzs; [contradiction|].
    f_equal. apply nearest_tenth_unique; lia.
Qed.

(** Votes 1, 3, 5 average "3.0"; an unreadable value among them changes
    nothing. *)
Lemma rating_average_witness :
  let p := {| question := "How confident are you in using AI for work?";
              type := "likert"; options := [] |} in
  average (aggregate (json_runtime := label_arrays) (Own p) ["1"; "3"; "5"])
  = Some "3.0"
  /\ likert_average ["1"; "n/a"; "3"; "5"] = likert_average ["1"; "3"; "5"].
Proof.
  intros p.
  destruct (@rating_average label_arrays p ["1"; "3"; "5"] eq_refl)
    as (Havg & _).
  destruct (@rating_average label_arrays p ["1"; "n/a"; "3"; "5"] eq_refl)
    as (_ & Hskip & _).
  split; [exact Havg | exact Hskip].
Defined.

(** C4, as stated, fails: the sum is a double.  A single stored value
    9007199254740993 (2^53 + 1) has itself as mean, which to one decimal
    is 9007199254740993.0; the average reported is 9007199254740992.0. *)
Lemma rating_average_precision_counterexample :
  let p := {| question := "?"; type := "likert"; options := [] |} in
  let rows := ["9007199254740993"] in
  average (aggregate (json_runtime := label_arrays) (Own p) rows)
  = Some "9007199254740992.0"
  /\ parsed_integers rows = [9007199254740993%Z]
  /\ spec_average rows = "9007199254740993.0".
Proof.
  repeat split; vm_compute; reflexivity.
Qed.

(** * Further properties of the server *)

(** ** What POST /api/vote answers *)


Lemma attempted_app (e1 e2 : list event) :
  attempted (e1 ++ e2) = attempted e1 ++ attempted e2.
Proof. unfold attempted. apply flat_map_app. Qed.

Lemma attempted_deliveries (d : data) (sockets : list WebSocket) :
  attempted (map (delivery d) sockets) = map socket_id sockets.
Proof.
  induction sockets as [| ws rest IH]; simpl; [reflexivity|].
  unfold delivery at 1. destruct (send_error ws); simpl; now rewrite IH.
Qed.


(** A vote can be stored and still be answered 500: when the upsert
    succeeds and the query that follows fails, the row is written (or
    overwritten), no client is told, and the submitter gets the query's
    error. *)
Theorem vote_stored_despite_failure {J : JSON} {E : Engine}
    (catalog : JsObject.t Poll) (env : Env) (request : VoteBody)
    (p v : string) (x : json) (message : string) (w : World) :
  passes catalog request p v x ->
  failure env UpsertVote = None ->
  failure env GetVotes = Some message ->
  submitVote catalog env request w
  = ({| status := 500; body := ErrorReply message |},
     {| votes := upsert p v (stored_text x) (now env) (votes w);
        clients := clients w;
        trace := trace w ++ [Ran UpsertVote true; Ran GetVotes false] |}).
Proof.
  intros Hpass Hup Hsel. unfold submitVote, serve.
  now rewrite (post_vote_select_fails env w Hpass Hup Hsel).
Qed.

Lemma vote_stored_despite_failure_witness :
  let env := {| failure := fun s => match s with
                                    | GetVotes => Some "disk I/O error"
                                    | _ => None
                                    end;
                now := 5 |} in
  let request := {| poll := Some "1"; value := Some (JStr "Yes, regularly");
                    voterId := Some "amy" |} in
  submitVote (json_runtime := label_arrays) (engine := rowid_engine)
    POLLS env request (fresh [open_socket 1])
  = ({| status := 500; body := ErrorReply "disk I/O error" |},
     {| votes := [ {| poll_id := "1"; voter_id := "amy";
                      Votes.value := "Yes, regularly"; created_at := 5 |} ];
        clients := [open_socket 1];
        trace := [Ran UpsertVote true; Ran GetVotes false] |}).
Proof.
  intros env request.
  apply (@vote_stored_despite_failure label_arrays rowid_engine POLLS env request
           "1" "amy" (JStr "Yes, regularly") "disk I/O error"
           (fresh [open_socket 1])).
  - unfold passes. simpl. repeat split; discriminate.
  - reflexivity.
  - reflexivity.
Defined.


(** ** GET /api/results/:pollId *)

Lemma get_results_found {J : JSON} {E : Engine} (catalog : JsObject.t Poll)
    (env : Env) (pollId : string) :
  get catalog pollId <> Undefined ->
  get_results catalog env pollId
  = (r <- aggregateResults catalog env pollId ;; ret (json_reply (ResultsReply r))).
Proof.
  intros Hknown. unfold get_results.
  destruct (get catalog pollId); [contradiction | reflexivity | reflexivity].
Qed.

(** The results route answers 404 exactly when [POLLS[pollId]] is
    undefined, and then runs no statement.  Otherwise it runs the one
    query: when the query succeeds it answers 200 with the aggregate of
    the rows stored for the poll, when it fails the error goes to Express.
    In no case does it change a row, the set of clients, or send anything
    to a client. *)
Theorem results_route {J : JSON} {E : Engine} (catalog : JsObject.t Poll)
    (env : Env) (pollId : string) (w : World) :
  let r := fst (serve (get_results catalog env pollId) w) in
  let w' := snd (serve (get_results catalog env pollId) w) in
  (status r = 404 <-> get catalog pollId = Undefined)
  /\ (get catalog pollId = Undefined -> w' = w)
  /\ (get catalog pollId <> Undefined -> failure env GetVotes = None ->
      r = json_reply (ResultsReply (current_aggregate catalog pollId (votes w)))
      /\ trace w' = trace w ++ [Ran GetVotes true])
  /\ (get catalog pollId <> Undefined ->
      forall message, failure env GetVotes = Some message ->
      r = status_reply 500 (Unhandled message))
  /\ votes w' = votes w
  /\ clients w' = clients w
  /\ attempted (trace w') = attempted (trace w).
Proof.
  unfold serve.
  destruct (get catalog pollId) eqn:Hget.
  - unfold get_results. rewrite Hget. simpl.
    repeat split; auto; try contradiction; intros; congruence.
  - assert (Hknown : get catalog pollId <> Undefined) by (rewrite Hget; discriminate).
    rewrite (@get_results_found J E catalog env pollId Hknown). unfold bind.
    destruct (failure env GetVotes) as [message|] eqn:Hsel.
    + rewrite (aggregateResults_fails catalog env pollId w Hsel). simpl.
      rewrite attempted_app. simpl. rewrite app_nil_r.
      repeat split; try discriminate; try congruence.
    + rewrite (aggregateResults_ok catalog env pollId w Hsel). simpl.
      rewrite attempted_app. simpl. rewrite app_nil_r.
      repeat split; try discriminate; try congruence.
  - assert (Hknown : get catalog pollId <> Undefined) by (rewrite Hget; discriminate).
    rewrite (@get_results_found J E catalog env pollId Hknown). unfold bind.
    destruct (failure env GetVotes) as [message|] eqn:Hsel.
    + rewrite (aggregateResults_fails catalog env pollId w Hsel). simpl.
      rewrite attempted_app. simpl. rewrite app_nil_r.
      repeat split; try discriminate; try congruence.
    + rewrite (aggregateResults_ok catalog env pollId w Hsel). simpl.
      rewrite attempted_app. simpl. rewrite app_nil_r.
      repeat split; try discriminate; try congruence.
Qed.




(** ** GET /api/reset when the storage layer fails *)

(** The reset route has no try/catch.  When the DELETE fails, the table
    is as it was and no client is sent anything.  When the DELETE succeeds
    and the first query fails, the table is already empty and still no
    client is sent anything.  Either way the error goes to Express (500)
    unless the catalog is empty. *)
Theorem reset_failure {J : JSON} {E : Engine} (catalog : JsObject.t Poll)
    (env : Env) (w : World) :
  (forall message,
      failure env ClearAll = Some message ->
      reset catalog env w
      = (status_reply 500 (Unhandled message),
         {| votes := votes w; clients := clients w;
            trace := trace w ++ [Ran ClearAll false] |}))
  /\ (forall message first rest,
        failure env ClearAll = None ->
        failure env GetVotes = Some message ->
        keys catalog = first :: rest ->
        reset catalog env w
        = (status_reply 500 (Unhandled message),
           {| votes := []; clients := clients w;
              trace := trace w ++ [Ran ClearAll true; Ran GetVotes false] |})).
Proof.
  split.
  - intros message Hko. unfold reset, serve, get_reset, clearAll_run, run.
    rewrite Hko. reflexivity.
  - intros message first rest Hok Hko Hkeys.
    unfold reset, serve, get_reset, clearAll_run, run.
    rewrite Hok, Hkeys. simpl. unfold bind at 1 2 3 4. simpl.
    unfold bind at 1.
    rewrite (aggregateResults_fails catalog env first _ Hko). simpl.
    unfold extend. simpl. now rewrite <- app_assoc.
Qed.

Lemma reset_failure_witness :
  let env := {| failure := fun s => match s with
                                    | GetVotes => Some "disk I/O error"
                                    | _ => None
                                    end;
                now := 9 |} in
  let w := {| votes := [ {| poll_id := "1"; voter_id := "amy";
                            Votes.value := "Yes, regularly"; created_at := 1 |} ];
              clients := [open_socket 1]; trace := [] |} in
  reset (json_runtime := label_arrays) (engine := rowid_engine) POLLS env w
  = (status_reply 500 (Unhandled "disk I/O error"),
     {| votes := []; clients := [open_socket 1];
        trace := [Ran ClearAll true; Ran GetVotes false] |}).
Proof.
  intros env w.
  destruct (@reset_failure label_arrays rowid_engine POLLS env w) as [_ Hquery].
  apply (Hquery "disk I/O error" "1" ["2"; "3"; "4"; "5"; "6"]); reflexivity.
Defined.

(** ** The set of clients *)

Lemma connect_ids (ws : WebSocket) (w : World) :
  NoDup (map socket_id (clients w)) ->
  NoDup (map socket_id (clients (connect ws w)))
  /\ In (socket_id ws) (map socket_id (clients (connect ws w))).
Proof.
  intros Hnd. unfold connect. simpl.
  destruct (existsb (fun c => Nat.eqb (socket_id c) (socket_id ws)) (clients w))
    eqn:Hmem.
  - split; [exact Hnd|].
    apply existsb_exists in Hmem. destruct Hmem as (c & Hc & Heq).
    apply Nat.eqb_eq in Heq. rewrite <- Heq. now apply in_map.
  - split.
    + rewrite map_app. simpl.
      apply NoDup_app; [exact Hnd | repeat constructor; intros [] |].
      intros id Hid [<-|[]].
      apply in_map_iff in Hid. destruct Hid as (c & Heq & Hc).
      apply Bool.not_true_iff_false in Hmem. apply Hmem.
      apply existsb_exists. exists c. split; [exact Hc | now apply Nat.eqb_eq].
    + rewrite map_app. apply in_or_app. right. now left.
Qed.

Lemma disconnect_ids (id : nat) (w : World) :
  NoDup (map socket_id (clients w)) ->
  NoDup (map socket_id (clients (disconnect id w)))
  /\ ~ In id (map socket_id (clients (disconnect id w))).
Proof.
  intros Hnd. unfold disconnect. simpl. split.
  - induction (clients w) as [| c rest IH]; simpl; [constructor|].
    inversion Hnd as [| k ks Hout Hnd']; subst.
    destruct (Nat.eqb (socket_id c) id); simpl; [now apply IH|].
    constructor; [|now apply IH].
    intros Hin. apply Hout. apply in_map_iff in Hin.
    destruct Hin as (c' & Heq & Hc'). apply filter_In in Hc'.
    rewrite <- Heq. apply in_map. tauto.
  - intros Hin. apply in_map_iff in Hin. destruct Hin as (c & Heq & Hc).
    apply filter_In in Hc. destruct Hc as [_ Hc].
    apply Bool.negb_true_iff, Nat.eqb_neq in Hc. contradiction.
Qed.

(** However clients come and go, no socket is registered twice; and a
    broadcast attempts delivery to exactly the registered sockets, once
    each, in the order in which they were registered: a socket that has
    closed is not attempted, a socket that has opened (and not closed) is. *)
Theorem clients_registry (events : list socket_event) (w : World) (d : data) :
  NoDup (map socket_id (clients w)) ->
  let w' := fold_left on_socket_event events w in
  NoDup (map socket_id (clients w'))
  /\ attempted (trace (snd (broadcast d w')))
     = attempted (trace w) ++ map socket_id (clients w')
  /\ (forall id, ~ In id (map socket_id (clients (disconnect id w'))))
  /\ (forall ws, In (socket_id ws) (map socket_id (clients (connect ws w')))).
Proof.
  intros Hnd w'. subst w'.
  assert (Hinv : NoDup (map socket_id (clients (fold_left on_socket_event events w)))
                 /\ trace (fold_left on_socket_event events w) = trace w).
  { revert w Hnd. induction events as [| e rest IH]; intros w Hnd; simpl.
    - now split.
    - destruct e as [ws | id]; simpl.
      + destruct (IH (connect ws w)) as [H1 H2]; [now apply connect_ids|].
        now split.
      + destruct (IH (disconnect id w)) as [H1 H2]; [now apply disconnect_ids|].
        now split. }
  destruct Hinv as [Hdistinct Htrace].
  split; [exact Hdistinct|]. split; [|split].
  - rewrite broadcast_spec. simpl.
    now rewrite attempted_app, attempted_deliveries, Htrace.
  - intros id. now apply disconnect_ids.
  - intros ws. now apply connect_ids.
Qed.

Lemma clients_registry_witness :
  let events := [Opened (open_socket 1); Opened (broken_socket 2);
                 Opened (open_socket 1); Closed 2; Opened (open_socket 3)] in
  let w' := fold_left on_socket_event events (fresh []) in
  map socket_id (clients w') = [1; 3]
  /\ attempted (trace (snd (broadcast (TunnelData "https://example.ngrok.app") w')))
     = [1; 3].
Proof.
  intros events w'. subst w'.
  destruct (@clients_registry events (fresh [])
              (TunnelData "https://example.ngrok.app")) as (_ & Hattempts & _).
  - constructor.
  - split; [reflexivity | exact Hattempts].
Defined.

(** ** Writing a vote and reading it back *)

Lemma find_row_upsert_same (p v x : string) (clock : nat) (t : Table) :
  find_row p v (upsert p v x clock t)
  = Some {| poll_id := p; voter_id := v; Votes.value := x; created_at := clock |}.
Proof.
  unfold find_row. induction t as [| r rest IH]; simpl.
  - unfold has_key. simpl. now rewrite !String.eqb_refl.
  - destruct (has_key p v r) eqn:Hk; simpl.
    + unfold has_key in *. simpl. rewrite Hk.
      apply Bool.andb_true_iff in Hk. destruct Hk as [Hp Hv].
      apply String.eqb_eq in Hp, Hv. now rewrite Hp, Hv.
    + rewrite Hk. exact IH.
Qed.

Lemma find_row_upsert_other (p v x p' v' : string) (clock : nat) (t : Table) :
  (p', v') <> (p, v) ->
  find_row p' v' (upsert p v x clock t) = find_row p' v' t.
Proof.
  intros Hne. unfold find_row. induction t as [| r rest IH]; simpl.
  - destruct (has_key p' v' _) eqn:Hk; [|reflexivity].
    apply has_key_spec in Hk. unfold key in Hk. simpl in Hk. congruence.
  - destruct (has_key p v r) eqn:Hk; simpl.
    + assert (Hother : has_key p' v' r = false).
      { apply Bool.not_true_iff_false. intros Hk'.
        apply has_key_spec in Hk, Hk'. congruence. }
      assert (Hnew : has_key p' v'
                       {| poll_id := poll_id r; voter_id := voter_id r;
                          Votes.value := x; created_at := clock |} = false).
      { exact Hother. }
      now rewrite Hnew, Hother.
    + destruct (has_key p' v' r); [reflexivity | exact IH].
Qed.

(** Once the upsert of a vote has run, the row of that (poll, voter)
    holds the submitted text (a non-string value as JSON text) and the
    time of the request, and the row of every other (poll, voter) is what
    it was, present or absent. *)
Theorem vote_round_trip {J : JSON} {E : Engine} (catalog : JsObject.t Poll)
    (env : Env) (request : VoteBody) (p v : string) (x : json) (w : World) :
  passes catalog request p v x ->
  failure env UpsertVote = None ->
  let w' := snd (submitVote catalog env request w) in
  find_row p v (votes w')
  = Some {| poll_id := p; voter_id := v;
            Votes.value := stored_text x; created_at := now env |}
  /\ (forall p' v', (p', v') <> (p, v) ->
        find_row p' v' (votes w') = find_row p' v' (votes w)).
Proof.
  intros Hpass Hup w'. subst w'.
  rewrite (submitVote_stores env w Hpass Hup).
  split; [apply find_row_upsert_same|].
  intros p' v' Hne. now apply find_row_upsert_other.
Qed.

Lemma vote_round_trip_witness :
  let w := {| votes := [ {| poll_id := "1"; voter_id := "bob";
                            Votes.value := "Yes, a few times"; created_at := 2 |} ];
              clients := []; trace := [] |} in
  let request := {| poll := Some "4";
                    value := Some (JArr [JStr "Claude"; JStr "ChatGPT"]);
                    voterId := Some "amy" |} in
  let w' := snd (submitVote (json_runtime := label_arrays) (engine := rowid_engine)
                   POLLS (healthy 8) request w) in
  find_row "4" "amy" (votes w')
  = Some {| poll_id := "4"; voter_id := "amy";
            Votes.value := stringify_plain (JArr [JStr "Claude"; JStr "ChatGPT"]);
            created_at := 8 |}
  /\ find_row "1" "bob" (votes w') = find_row "1" "bob" (votes w).
Proof.
  intros w request w'. subst w'.
  destruct (@vote_round_trip label_arrays rowid_engine POLLS (healthy 8) request
              "4" "amy" (JArr [JStr "Claude"; JStr "ChatGPT"]) w)
    as [Hsame Hother].
  - unfold passes. simpl. repeat split; discriminate.
  - reflexivity.
  - split; [exact Hsame|]. apply Hother. discriminate.
Defined.

(** ** The table after a series of votes *)

Lemma distinct_snoc (l : list string) (x : string) :
  distinct (l ++ [x])
  = distinct l ++ (if existsb (String.eqb x) l then [] else [x]).
Proof.
  induction l as [| y rest IH]; simpl; [reflexivity|].
  rewrite IH, filter_app. f_equal. f_equal.
  destruct (String.eqb_spec x y) as [->|Hne]; simpl.
  - destruct (existsb (String.eqb y) rest); simpl; [reflexivity|].
    now rewrite String.eqb_refl.
  - destruct (existsb (String.eqb x) rest); simpl; [reflexivity|].
    destruct (String.eqb_spec x y); [contradiction | reflexivity].
Qed.

Lemma latest_of_snoc (voter : string) (subs : list (string * string * nat))
    (s : string * string * nat) :
  latest_of voter (subs ++ [s])
  = if String.eqb (voter_of s) voter then Some s else latest_of voter subs.
Proof. unfold latest_of. rewrite rev_unit. reflexivity. Qed.

Lemma final_row_key (p : string) (subs : list (string * string * nat))
    (voter : string) :
  key (final_row p subs voter) = (p, voter).
Proof.
  unfold final_row, latest_of.
  destruct (find _ (rev subs)) as [[[v text] clock]|] eqn:Hfind; [|reflexivity].
  apply find_some in Hfind. destruct Hfind as [_ Heq].
  apply String.eqb_eq in Heq. unfold voter_of in Heq. simpl in Heq.
  now rewrite <- Heq.
Qed.

Lemma final_row_snoc (p : string) (subs : list (string * string * nat))
    (s : string * string * nat) (voter : string) :
  final_row p (subs ++ [s]) voter
  = if String.eqb (voter_of s) voter then row_of p s else final_row p subs voter.
Proof.
  unfold final_row. rewrite latest_of_snoc.
  now destruct (String.eqb (voter_of s) voter).
Qed.

Lemma row_of_as_record (p : string) (s : string * string * nat) :
  row_of p s
  = {| poll_id := p; voter_id := voter_of s;
       Votes.value := text_of s; created_at := snd s |}.
Proof. now destruct s as [[voter text] clock]. Qed.

Lemma keys_of_voters (p : string) (voters : list string) :
  NoDup voters -> NoDup (map (fun voter => (p, voter)) voters).
Proof.
  induction 1 as [| voter rest Hout Hnd IH]; simpl; constructor; [|exact IH].
  intros Hin. apply in_map_iff in Hin.
  destruct Hin as (other & [= <-] & Hother). contradiction.
Qed.

(** The table a series of upserts for one poll builds from nothing. *)
Lemma upserts_from_nothing (p : string) (subs : list (string * string * nat)) :
  fold_left (fun t s => upsert p (voter_of s) (text_of s) (snd s) t) subs []
  = map (final_row p subs) (distinct (map voter_of subs)).
Proof.
  induction subs as [| s subs IH] using rev_ind; [reflexivity|].
  rewrite fold_left_app, IH. simpl.
  rewrite (map_app voter_of). simpl. rewrite distinct_snoc.
  set (voters := distinct (map voter_of subs)).
  assert (Hkeys : map key (map (final_row p subs) voters)
                  = map (fun voter => (p, voter)) voters).
  { rewrite map_map. apply map_ext. intros voter. apply final_row_key. }
  destruct (existsb (String.eqb (voter_of s)) (map voter_of subs)) eqn:Hmem.
  - (* the voter has a row: it is overwritten where it stands *)
    apply mem_In in Hmem.
    assert (Hin : In (voter_of s) voters) by (unfold voters; now apply distinct_In).
    rewrite app_nil_r, upsert_overwrites.
    + rewrite map_map. apply map_ext_in. intros voter Hvoter.
      rewrite final_row_snoc. unfold overwrite.
      pose proof (final_row_key p subs voter) as Hrow.
      destruct (has_key p (voter_of s) (final_row p subs voter)) eqn:Hk.
      * apply has_key_spec in Hk. rewrite Hrow in Hk.
        injection Hk as Hk. subst voter. rewrite String.eqb_refl.
        unfold key in Hrow. injection Hrow as Hp Hv.
        rewrite Hp, Hv. symmetry. apply row_of_as_record.
      * destruct (String.eqb_spec (voter_of s) voter) as [Heq|Hne]; [|reflexivity].
        exfalso. apply Bool.not_true_iff_false in Hk. apply Hk.
        apply has_key_spec. now rewrite Hrow, Heq.
    + unfold unique_keys. rewrite Hkeys.
      apply keys_of_voters, distinct_NoDup.
    + rewrite Hkeys. now apply (in_map (fun voter => (p, voter))).
  - (* a new voter: the row goes last *)
    assert (Hout : ~ In (voter_of s) voters).
    { intros Hin. unfold voters in Hin. apply (proj1 (distinct_In _ _)) in Hin.
      apply (proj2 (mem_In _ _)) in Hin. rewrite Hin in Hmem. discriminate. }
    rewrite upsert_keys_absent.
    + rewrite map_app. simpl. f_equal.
      * apply map_ext_in. intros voter Hvoter.
        rewrite final_row_snoc.
        destruct (String.eqb_spec (voter_of s) voter) as [Heq|Hne]; [|reflexivity].
        subst voter. contradiction.
      * rewrite final_row_snoc, String.eqb_refl.
        now rewrite row_of_as_record.
    + rewrite Hkeys. intros Hin. apply in_map_iff in Hin.
      destruct Hin as (voter & [= ->] & Hvoter). contradiction.
Qed.

Section VotesInSeries.

Context {J : JSON} {E : Engine}.
Variable catalog : JsObject.t Poll.
Variable p : string.
Hypothesis known : get catalog p <> Undefined.
Hypothesis named : p <> "".

Lemma submit_all_texts (subs : list (string * string * nat)) :
  (forall s, In s subs -> voter_of s <> "" /\ text_of s <> "") ->
  forall w,
    votes (submit_all catalog (map (text_vote p) subs) w)
    = fold_left (fun t s => upsert p (voter_of s) (text_of s) (snd s) t)
        subs (votes w).
Proof.
  unfold submit_all.
  induction subs as [| s rest IH]; intros Hfilled w; simpl; [reflexivity|].
  destruct (Hfilled s (or_introl eq_refl)) as [Hv Ht].
  pose proof (text_vote_passes catalog s known named Hv Ht) as Hpass.
  rewrite IH by (intros s' Hs'; apply Hfilled; now right).
  f_equal.
  rewrite (submitVote_stores (fst (text_vote p s)) w Hpass)
    by (destruct s as [[? ?] ?]; reflexivity).
  destruct s as [[voter text] clock]. reflexivity.
Qed.

End VotesInSeries.

Lemma total_known {J : JSON} (found : lookup Poll) (rows : list string) :
  found <> Undefined -> total (aggregate found rows) = List.length rows.
Proof.
  intros Hknown. unfold aggregate.
  destruct found as [| poll |]; [contradiction | | reflexivity].
  destruct (String.eqb (type poll) "open"); [reflexivity|].
  destruct (String.eqb (type poll) "multi"); [reflexivity|].
  destruct (String.eqb (type poll) "mc-writein").
  - now destruct (fold_left _ rows _).
  - now destruct (String.eqb (type poll) "likert").
Qed.

Lemma of_poll_final_rows (p : string) (subs : list (string * string * nat))
    (voters : list string) :
  of_poll p (map (final_row p subs) voters) = map (final_row p subs) voters.
Proof.
  unfold of_poll. apply forallb_filter_id, forallb_forall.
  intros r Hr. apply in_map_iff in Hr. destruct Hr as (voter & <- & _).
  pose proof (final_row_key p subs voter) as Hkey. unfold key in Hkey.
  injection Hkey as Hp _. rewrite Hp. apply String.eqb_refl.
Qed.

Lemma series_table {J : JSON} {E : Engine} (catalog : JsObject.t Poll)
    (p : string) (subs : list (string * string * nat))
    (sockets : list WebSocket) :
  get catalog p <> Undefined -> p <> "" ->
  (forall s, In s subs -> voter_of s <> "" /\ text_of s <> "") ->
  votes (submit_all catalog (map (text_vote p) subs) (fresh sockets))
  = fold_left (fun t s => upsert p (voter_of s) (text_of s) (snd s) t) subs [].
Proof.
  intros Hknown Hnamed Hfilled.
  now rewrite (submit_all_texts catalog Hknown Hnamed subs Hfilled).
Qed.

(** Votes for one poll, cast into an empty table with the storage layer
    working, leave one row per voter: the rows stand in the order of the
    voters' first votes, and each holds the text and the time of its
    voter's latest vote. *)
Theorem table_after_votes {J : JSON} {E : Engine} (catalog : JsObject.t Poll)
    (p : string) (subs : list (string * string * nat))
    (sockets : list WebSocket) :
  get catalog p <> Undefined -> p <> "" ->
  (forall s, In s subs -> voter_of s <> "" /\ text_of s <> "") ->
  votes (submit_all catalog (map (text_vote p) subs) (fresh sockets))
  = map (final_row p subs) (distinct (map voter_of subs)).
Proof.
  intros Hknown Hnamed Hfilled.
  rewrite series_table by assumption.
  apply upserts_from_nothing.
Qed.

Lemma table_after_votes_witness :
  let subs := [("zed", "first", 1); ("amy", "second", 2); ("zed", "third", 3)] in
  votes (submit_all (json_runtime := label_arrays) (engine := index_engine)
           POLLS (map (text_vote "2") subs) (fresh []))
  = [ {| poll_id := "2"; voter_id := "zed"; Votes.value := "third"; created_at := 3 |};
      {| poll_id := "2"; voter_id := "amy"; Votes.value := "second"; created_at := 2 |} ].
Proof.
  intros subs.
  rewrite (@table_after_votes label_arrays index_engine POLLS "2" subs []).
  - reflexivity.
  - discriminate.
  - discriminate.
  - intros s [<-|[<-|[<-|[]]]]; split; discriminate.
Defined.

(** After such a series of votes the poll's [total] is the number of
    distinct voters, however many times each of them voted and in
    whatever order the store lists the rows. *)
Theorem total_counts_voters {J : JSON} {E : Engine} (catalog : JsObject.t Poll)
    (p : string) (subs : list (string * string * nat))
    (sockets : list WebSocket) :
  get catalog p <> Undefined -> p <> "" ->
  (forall s, In s subs -> voter_of s <> "" /\ text_of s <> "") ->
  total (current_aggregate catalog p
           (votes (submit_all catalog (map (text_vote p) subs) (fresh sockets))))
  = List.length (distinct (map voter_of subs)).
Proof.
  intros Hknown Hnamed Hfilled.
  rewrite series_table, upserts_from_nothing by assumption.
  unfold current_aggregate. rewrite (total_known _ Hknown).
  rewrite length_map, (Permutation_length (row_order_perm _)).
  now rewrite of_poll_final_rows, length_map.
Qed.

Lemma total_counts_voters_witness :
  let subs := [("zed", "Yes, regularly", 1); ("amy", "What's AI?", 2);
               ("zed", "Yes, a few times", 3)] in
  total (current_aggregate (json_runtime := label_arrays) (engine := index_engine)
           POLLS "1"
           (votes (submit_all (json_runtime := label_arrays) (engine := index_engine)
                     POLLS (map (text_vote "1") subs) (fresh []))))
  = 2.
Proof.
  intros subs.
  rewrite (@total_counts_voters label_arrays index_engine POLLS "1" subs []).
  - reflexivity.
  - discriminate.
  - discriminate.
  - intros s [<-|[<-|[<-|[]]]]; split; discriminate.
Defined.



(** ** More on the rating average *)
Section RatingAverageMore.

Local Open Scope Z_scope.

Lemma sum_within (zs : list Z) (lo hi : Z) :
  (forall z, In z zs -> lo <= z <= hi) ->
  lo * Z.of_nat (List.length zs) <= sum_Z zs <= hi * Z.of_nat (List.length zs).
Proof.
  induction zs as [| z rest IH]; intros Hall.
  - simpl. lia.
  - assert (Hz : lo <= z <= hi) by (apply Hall; now left).
    assert (Hrest : forall z', In z' rest -> lo <= z' <= hi)
      by (intros z' Hz'; apply Hall; now right).
    specialize (IH Hrest).
    change (sum_Z (z :: rest)) with (z + sum_Z rest).
    change (List.length (z :: rest)) with (S (List.length rest)).
    rewrite Nat2Z.inj_succ. nia.
Qed.

(** Within the exact range, the average lies between the least and the
    greatest value read: when every readable stored value is an integer
    between [lo] and [hi], with [lo] not negative, the average printed is
    a tenth between [lo] and [hi]. *)
Theorem rating_average_within (rows : list string) (lo hi : Z) :
  parsed_integers rows <> [] ->
  Z.of_nat (List.length (parsed_integers rows)) < 2 ^ 53 ->
  20 * sum_abs (parsed_integers rows) < 2 ^ 53 ->
  0 <= lo ->
  (forall z, In z (parsed_integers rows) -> lo <= z <= hi) ->
  exists d,
    likert_average rows = fixed1 false d
    /\ 10 * lo <= d <= 10 * hi.
Proof.
  intros Hsome Hcount Hsafe Hlo Hall.
  pose proof (sum_abs_bound (parsed_integers rows)) as Hbound.
  pose proof (sum_within _ Hall) as Hsum.
  set (zs := parsed_integers rows) in *.
  set (n := Z.of_nat (List.length zs)) in *.
  assert (Hn : 0 < n < 2 ^ 53).
  { split; [|exact Hcount]. subst n.
    destruct zs; [contradiction | simpl; lia]. }
  destruct (@average_nearest_tenth (sum_Z zs) n Hn ltac:(lia))
    as (d & Hprint & Hd0 & Hnear).
  exists d. rewrite (likert_average_exact rows Hsome Hsafe).
  fold zs. fold n. rewrite Hprint.
  assert (Hpos : 0 <= sum_Z zs) by nia.
  split.
  - destruct (Z.ltb_spec (sum_Z zs) 0); [lia | reflexivity].
  - rewrite (Z.abs_eq (sum_Z zs)) in Hnear by exact Hpos. nia.
Qed.

(** Within the exact range, a mean with at most one decimal is printed
    exactly: when ten times the sum of the values read is a multiple of
    their number, the average is that quotient in tenths. *)
Theorem rating_average_exact_tenth (rows : list string) :
  parsed_integers rows <> [] ->
  Z.of_nat (List.length (parsed_integers rows)) < 2 ^ 53 ->
  20 * sum_abs (parsed_integers rows) < 2 ^ 53 ->
  (10 * sum_Z (parsed_integers rows))
    mod Z.of_nat (List.length (parsed_integers rows)) = 0 ->
  likert_average rows
  = fixed1 (sum_Z (parsed_integers rows) <? 0)
      (10 * Z.abs (sum_Z (parsed_integers rows))
       / Z.of_nat (List.length (parsed_integers rows))).
Proof.
  intros Hsome Hcount Hsafe Hexact.
  pose proof (sum_abs_bound (parsed_integers rows)) as Hbound.
  set (zs := parsed_integers rows) in *.
  set (n := Z.of_nat (List.length zs)) in *.
  assert (Hn : 0 < n < 2 ^ 53).
  { split; [|exact Hcount]. subst n.
    destruct zs; [contradiction | simpl; lia]. }
  destruct (@average_nearest_tenth (sum_Z zs) n Hn ltac:(lia))
    as (d & Hprint & Hd0 & Hnear).
  rewrite (likert_average_exact rows Hsome Hsafe).
  fold zs. fold n. rewrite Hprint. f_equal.
  assert (Habs : (10 * Z.abs (sum_Z zs)) mod n = 0).
  { destruct (Z.abs_spec (sum_Z zs)) as [[_ ->]|[_ ->]]; [exact Hexact|].
    replace (10 * - sum_Z zs) with (- (10 * sum_Z zs)) by lia.
    apply Z.mod_opp_l_z; [lia | exact Hexact]. }
  pose proof (Z.div_mod (10 * Z.abs (sum_Z zs)) n ltac:(lia)) as Hdm.
  rewrite Habs in Hdm.
  set (q := 10 * Z.abs (sum_Z zs) / n) in *.
  nia.
Qed.

End RatingAverageMore.

(** Votes cast with the five buttons of the page, say 4, 5, 5 and 2,
    average "4.0": between 1 and 5, and exact. *)
Lemma rating_average_within_witness :
  exists d,
    likert_average ["4"; "5"; "5"; "2"] = fixed1 false d
    /\ (10 * 1 <= d <= 10 * 5)%Z.
Proof.
  apply (@rating_average_within ["4"; "5"; "5"; "2"] 1 5).
  - discriminate.
  - reflexivity.
  - reflexivity.
  - discriminate.
  - intros z Hz. vm_compute in Hz.
    repeat (destruct Hz as [<-|Hz]; [split; discriminate|]). destruct Hz.
Defined.

Lemma rating_average_exact_tenth_witness :
  likert_average ["4"; "5"; "5"; "2"] = "4.0"
  /\ likert_average ["1"; "2"] = "1.5".
Proof.
  split.
  - rewrite (@rating_average_exact_tenth ["4"; "5"; "5"; "2"]);
      [reflexivity | discriminate | reflexivity | reflexivity | reflexivity].
  - rewrite (@rating_average_exact_tenth ["1"; "2"]);
      [reflexivity | discriminate | reflexivity | reflexivity | reflexivity].
Defined.

(** ** The vote page's [escapeAttr] *)

Lemma contains_char_append (c : ascii) (s1 s2 : string) :
  contains_char c (s1 ++ s2) = contains_char c s1 || contains_char c s2.
Proof.
  induction s1 as [| a rest IH]; simpl; [reflexivity|].
  now rewrite IH, Bool.orb_assoc.
Qed.

(** After [s.replace(/c/g, by)] a character that [by] does not hold is in
    the text only if it was there before and is not [c]. *)
Lemma replace_all_contains (c c' : ascii) (by_text s : string) :
  contains_char c' by_text = false ->
  contains_char c' (replace_all c by_text s)
  = contains_char c' s && negb (Ascii.eqb c' c).
Proof.
  intros Hby. induction s as [| a rest IH]; simpl; [reflexivity|].
  destruct (Ascii.eqb_spec a c) as [->|Hne].
  - rewrite contains_char_append, Hby, IH. simpl.
    rewrite (Ascii.eqb_sym c c').
    destruct (Ascii.eqb c' c); simpl;
      [now rewrite !Bool.andb_false_r | now rewrite !Bool.andb_true_r].
  - simpl. rewrite IH.
    destruct (Ascii.eqb_spec a c') as [->|Hne']; simpl; [|reflexivity].
    destruct (Ascii.eqb_spec c' c) as [->|]; [contradiction | reflexivity].
Qed.

Lemma replace_all_absent (c : ascii) (by_text s : string) :
  contains_char c s = false -> replace_all c by_text s = s.
Proof.
  induction s as [| a rest IH]; simpl; intros Hno; [reflexivity|].
  apply Bool.orb_false_iff in Hno. destruct Hno as [Ha Hrest].
  rewrite Ha. f_equal. now apply IH.
Qed.

(** Whatever the label, [escapeAttr] returns a text without a double
    quote, a single quote, [<] or [>]; a label that holds none of the
    four is returned as it is. *)
Theorem escapeAttr_safe (s : string) :
  (forall c, In c markup_chars -> contains_char c (escapeAttr s) = false)
  /\ ((forall c, In c markup_chars -> contains_char c s = false) ->
      escapeAttr s = s).
Proof.
  split.
  - intros c Hc. unfold escapeAttr.
    rewrite !replace_all_contains
      by (simpl in Hc; repeat (destruct Hc as [<-|Hc]; [reflexivity|]); destruct Hc).
    simpl in Hc.
    repeat (destruct Hc as [<-|Hc];
            [simpl; now rewrite ?Bool.andb_false_r|]).
    destruct Hc.
  - intros Hnone. unfold escapeAttr.
    assert (H1 : contains_char (ascii_of_nat 34) s = false)
      by (apply Hnone; simpl; tauto).
    assert (H2 : contains_char "'" s = false) by (apply Hnone; simpl; tauto).
    assert (H3 : contains_char "<" s = false) by (apply Hnone; simpl; tauto).
    assert (H4 : contains_char ">" s = false) by (apply Hnone; simpl; tauto).
    rewrite (@replace_all_absent (ascii_of_nat 34) "&quot;" s H1).
    rewrite (@replace_all_absent "'" "&#39;" s H2).
    rewrite (@replace_all_absent "<" "&lt;" s H3).
    apply (@replace_all_absent ">" "&gt;" s H4).
Qed.

Example escapeAttr_labels :
  escapeAttr "No, but I'm curious" = "No, but I&#39;m curious"
  /\ escapeAttr "a<b>c" = "a&lt;b&gt;c"
  /\ escapeAttr "Midjourney / DALL-E" = "Midjourney / DALL-E".
Proof. repeat split; reflexivity. Qed.

(** ** Every vote is counted once *)

Lemma inherited_proto : inherited "__proto__" = true.
Proof. reflexivity. Qed.

(** Counting values that name no member of [Object.prototype]: the keys
    already there keep their places, the new ones follow in the order in
    which they first occur, and every key holds the number it started
    with plus the number of values that name it. *)
Lemma count_up_exact (ks : list string) :
  forall (labels : list string) (f : string -> nat),
    NoDup labels ->
    (forall k, In k ks -> inherited k = false) ->
    (forall x, ~ In x labels -> f x = 0) ->
    fold_left count_up ks (counted labels f)
    = counted
        (labels ++ distinct (filter (fun k => negb (existsb (String.eqb k) labels)) ks))
        (fun x => f x + occurrences x ks).
Proof.
  induction ks as [| k rest IH]; intros labels f Hnd Hplainkeys Hzero; simpl.
  - rewrite app_nil_r. apply counted_ext. intros x _. unfold occurrences. simpl. lia.
  - assert (Hk : inherited k = false) by (apply Hplainkeys; now left).
    assert (Hproto : String.eqb k "__proto__" = false).
    { destruct (String.eqb_spec k "__proto__") as [->|]; [|reflexivity].
      rewrite inherited_proto in Hk. discriminate. }
    assert (Hrest : forall k', In k' rest -> inherited k' = false)
      by (intros k' Hk'; apply Hplainkeys; now right).
    destruct (existsb (String.eqb k) labels) eqn:Hmem; simpl.
    + apply mem_In in Hmem.
      assert (Hstep : count_up (counted labels f) k
                      = counted labels (fun y => if String.eqb k y then f k + 1 else f y)).
      { unfold count_up, get, set. rewrite Hproto.
        rewrite own_get_counted by exact Hmem.
        now apply own_put_counted. }
      rewrite Hstep, IH; try assumption.
      * apply counted_ext. intros x _. rewrite occurrences_cons.
        rewrite (String.eqb_sym x k).
        destruct (String.eqb_spec k x) as [->|]; lia.
      * intros x Hx. destruct (String.eqb_spec k x) as [->|]; [contradiction|].
        now apply Hzero.
    + assert (Hout : ~ In k labels).
      { intros Hin. apply (proj2 (mem_In _ _)) in Hin. congruence. }
      assert (Hstep : count_up (counted labels f) k
                      = counted (labels ++ [k])
                          (fun y => f y + (if String.eqb y k then 1 else 0))).
      { unfold count_up, get, set. rewrite Hproto.
        rewrite own_get_none by (now rewrite counted_keys).
        rewrite Hk.
        rewrite own_put_fresh by (now rewrite counted_keys).
        rewrite counted_app. simpl. rewrite String.eqb_refl, (Hzero k Hout).
        f_equal. apply counted_ext. intros x Hx.
        destruct (String.eqb_spec x k) as [->|]; [contradiction | lia]. }
      rewrite Hstep, IH.
      * rewrite <- app_assoc. simpl.
        assert (Hlist :
                  distinct (filter (fun k0 => negb (existsb (String.eqb k0) (labels ++ [k])))
                              rest)
                  = filter (fun y => negb (String.eqb y k))
                      (distinct (filter (fun k0 => negb (existsb (String.eqb k0) labels))
                                   rest))).
        { rewrite distinct_filter. f_equal.
          clear. induction rest as [| y more IHr]; simpl; [reflexivity|].
          rewrite existsb_app. simpl. rewrite Bool.orb_false_r.
          destruct (existsb (String.eqb y) labels); simpl; [exact IHr|].
          destruct (String.eqb y k); simpl; [exact IHr | now f_equal]. }
        rewrite Hlist. apply counted_ext. intros x _. rewrite occurrences_cons.
        destruct (String.eqb x k); lia.
      * apply NoDup_app; [exact Hnd | repeat constructor; intros [] |].
        intros x Hx [<-|[]]. contradiction.
      * exact Hrest.
      * intros x Hx. rewrite (Hzero x) by (intros Hin; apply Hx, in_or_app; now left).
        destruct (String.eqb_spec x k) as [->|]; [|reflexivity].
        exfalso. apply Hx, in_or_app. right. now left.
Qed.

Lemma count_sum_perm (l l' : list item) :
  Permutation l l' -> count_sum l = count_sum l'.
Proof.
  induction 1; simpl; lia.
Qed.

Lemma count_sum_counted (labels : list string) (f : string -> nat) :
  count_sum (tallies (counted labels f))
  = fold_right (fun k acc => f k + acc) 0 labels.
Proof.
  unfold tallies.
  rewrite (count_sum_perm (Permutation_map _ (entries_perm (counted labels f)))).
  unfold counted. rewrite map_map. simpl.
  induction labels as [| k rest IH]; simpl; [reflexivity | now rewrite IH].
Qed.

Lemma numeric_counted (labels : list string) (f : string -> nat) :
  forallb numeric (tallies (counted labels f)) = true.
Proof.
  apply forallb_forall. intros it Hit. unfold tallies in Hit.
  apply in_map_iff in Hit. destruct Hit as ([k c] & <- & Hin).
  apply (Permutation_in _ (entries_perm _)) in Hin.
  unfold counted in Hin. apply in_map_iff in Hin.
  now destruct Hin as (label & [= <- <-] & _).
Qed.

Lemma sum_indicator (labels : list string) (v : string) :
  NoDup labels -> In v labels ->
  fold_right (fun k acc => (if String.eqb k v then 1 else 0) + acc) 0 labels = 1.
Proof.
  induction 1 as [| k rest Hout Hnd IH]; simpl; intros Hin; [contradiction|].
  destruct (String.eqb_spec k v) as [->|Hne].
  - assert (Hzero : fold_right (fun k acc => (if String.eqb k v then 1 else 0) + acc)
                      0 rest = 0).
    { clear -Hout. induction rest as [| y more IHr]; simpl; [reflexivity|].
      destruct (String.eqb_spec y v) as [->|].
      - exfalso. apply Hout. now left.
      - apply IHr. intros Hin. apply Hout. now right. }
    now rewrite Hzero.
  - apply IH. destruct Hin as [H|H]; [contradiction | exact H].
Qed.

Lemma sum_occurrences (labels rows : list string) :
  NoDup labels -> (forall v, In v rows -> In v labels) ->
  fold_right (fun k acc => occurrences k rows + acc) 0 labels = List.length rows.
Proof.
  intros Hnd. induction rows as [| v rest IH]; intros Hall.
  - simpl. clear. induction labels as [| k more IHl]; simpl; [reflexivity|].
    rewrite IHl. reflexivity.
  - assert (Hsplit :
              fold_right (fun k acc => occurrences k (v :: rest) + acc) 0 labels
              = fold_right (fun k acc => (if String.eqb k v then 1 else 0) + acc) 0 labels
                + fold_right (fun k acc => occurrences k rest + acc) 0 labels).
    { clear. induction labels as [| k more IHl]; simpl; [reflexivity|].
      rewrite occurrences_cons, IHl. lia. }
    rewrite Hsplit, IH by (intros v' Hv'; apply Hall; now right).
    rewrite (@sum_indicator labels v Hnd (Hall v (or_introl eq_refl))).
    reflexivity.
Qed.

Lemma simple_counts_exact (opts rows : list string) :
  (forall v, In v rows -> inherited v = false) ->
  let declared := distinct (filter storable opts) in
  let voted :=
    distinct (filter (fun k => negb (existsb (String.eqb k) declared)) rows) in
  fold_left count_up rows (zero_counts opts)
  = counted (declared ++ voted) (fun k => occurrences k rows)
  /\ NoDup (declared ++ voted)
  /\ (forall v, In v rows -> In v (declared ++ voted)).
Proof.
  intros Hplainkeys declared voted.
  split; [|split].
  - rewrite zero_counts_shape. fold declared.
    rewrite count_up_exact; try assumption.
    + reflexivity.
    + apply distinct_NoDup.
    + reflexivity.
  - apply NoDup_app; try apply distinct_NoDup.
    intros x Hx Hx'. unfold voted in Hx'.
    apply (proj1 (distinct_In _ _)) in Hx'. apply filter_In in Hx'.
    destruct Hx' as [_ Hx']. apply Bool.negb_true_iff in Hx'.
    apply (proj2 (mem_In _ _)) in Hx. congruence.
  - intros v Hv. apply in_or_app.
    destruct (existsb (String.eqb v) declared) eqn:Hmem.
    + left. now apply mem_In.
    + right. unfold voted. apply distinct_In, filter_In.
      split; [exact Hv | now rewrite Hmem].
Qed.

(** In a single-choice or rating-scale poll every vote is counted once,
    under its own value, as long as no stored value is the name of a
    member of [Object.prototype]: every count in the results is a number,
    every stored value is listed with the number of votes that hold it,
    and the counts add up to [total]. *)
Theorem simple_counts_add_up {J : JSON} (p : Poll) (rows : list string) :
  type p = "mc" \/ type p = "likert" ->
  (forall v, In v rows -> inherited v = false) ->
  let r := aggregate (Own p) rows in
  forallb numeric (results r) = true
  /\ count_sum (results r) = total r
  /\ (forall v, In v rows ->
        In (Tally v (Num (occurrences v rows))) (results r)).
Proof.
  intros Hty Hplainkeys r. subst r.
  destruct (simple_poll_unfold p rows Hty) as [Htotal Hresults].
  destruct (simple_counts_exact (options p) rows Hplainkeys)
    as (Hexact & Hnd & Hall).
  rewrite Hresults, Htotal, Hexact.
  split; [apply numeric_counted|]. split.
  - rewrite count_sum_counted. now apply sum_occurrences.
  - intros v Hv. unfold tallies.
    apply (in_map (fun e => Tally (fst e) (snd e)) _ (v, Num (occurrences v rows))).
    apply (Permutation_in _ (Permutation_sym (entries_perm _))).
    unfold counted.
    apply (in_map (fun label => (label, Num (occurrences label rows)))).
    now apply Hall.
Qed.

Lemma simple_counts_add_up_witness :
  let p := {| question := "How confident are you in using AI for work?";
              type := "likert";
              options := ["1 — Not at all"; "5 — I'm already an AI pro"] |} in
  let r := aggregate (json_runtime := label_arrays) (Own p) ["3"; "5"; "3"; "maybe"] in
  count_sum (results r) = 4
  /\ In (Tally "3" (Num 2)) (results r).
Proof.
  intros p r. subst r.
  destruct (@simple_counts_add_up label_arrays p ["3"; "5"; "3"; "maybe"])
    as (_ & Hsum & Hlisted).
  - now right.
  - intros v Hv. simpl in Hv.
    repeat (destruct Hv as [<-|Hv]; [reflexivity|]). destruct Hv.
  - split; [exact Hsum|]. apply (Hlisted "3"). now left.
Defined.

(** A stored value that does name such a member is not counted: the
    entry made for it holds no number. *)
Example inherited_value_not_counted :
  results (aggregate (json_runtime := label_arrays)
             (Own {| question := "?"; type := "mc"; options := ["A"] |})
             ["constructor"; "A"; "constructor"])
  = [Tally "A" (Num 1); Tally "constructor" NonNumeric].
Proof. reflexivity. Qed.

(** In a write-in poll none of whose options is [__proto__], every vote
    is counted exactly once, under its option or under "Other": every
    count is a number and the counts add up to [total]. *)
Theorem writein_counts_add_up {J : JSON} (p : Poll) (rows : list string) :
  type p = "mc-writein" ->
  ~ In "__proto__" (options p) ->
  let r := aggregate (Own p) rows in
  forallb numeric (results r) = true
  /\ count_sum (results r) = total r.
Proof.
  intros Hty Hproto r. subst r.
  rewrite (writein_poll_unfold p rows Hty). simpl.
  rewrite writein_counts_shape.
  split; [apply numeric_counted|].
  rewrite count_sum_counted, sum_occurrences.
  - apply length_map.
  - apply distinct_NoDup.
  - intros k Hk. apply in_map_iff in Hk. destruct Hk as (v & <- & _).
    apply distinct_In, filter_In. unfold bucket_of.
    destruct (existsb (String.eqb v) (options p)) eqn:Hmem.
    + apply mem_In in Hmem. split; [apply in_or_app; now left|].
      apply storable_spec. intros ->. contradiction.
    + split; [apply in_or_app; right; now left | reflexivity].
Qed.

Lemma writein_counts_add_up_witness :
  let p := {| question := "?"; type := "mc-writein"; options := ["Red"; "Other"] |} in
  let r := aggregate (json_runtime := label_arrays) (Own p)
             ["Green"; "Red"; "Other"; "constructor"] in
  count_sum (results r) = 4.
Proof.
  intros p r. subst r.
  destruct (@writein_counts_add_up label_arrays p
              ["Green"; "Red"; "Other"; "constructor"]) as (_ & Hsum).
  - reflexivity.
  - simpl. intuition discriminate.
  - exact Hsum.
Defined.

(** ** Votes whose values are array indices *)

Lemma index_not_inherited (k : string) : is_index k = true -> inherited k = false.
Proof.
  unfold is_index, array_index.
  destruct k as [| c rest]; [discriminate|].
  destruct (all_digits (String c rest)) eqn:Hdigits; [|discriminate].
  intros _. simpl in Hdigits. apply Bool.andb_true_iff in Hdigits.
  destruct Hdigits as [Hdigit _].
  destruct c as [b0 b1 b2 b3 b4 b5 b6 b7].
  destruct b0, b1, b2, b3, b4, b5, b6, b7; try discriminate Hdigit; reflexivity.
Qed.

Lemma occurrences_absent (x : string) (l : list string) :
  ~ In x l -> occurrences x l = 0.
Proof.
  unfold occurrences. induction l as [| y rest IH]; simpl; intros Hout; [reflexivity|].
  destruct (String.eqb_spec x y) as [->|Hne].
  - exfalso. apply Hout. now left.
  - apply IH. intros Hin. apply Hout. now right.
Qed.

Lemma filter_counted (test : string -> bool) (labels : list string)
    (f : string -> nat) :
  filter (fun e => test (fst e)) (counted labels f) = counted (filter test labels) f.
Proof.
  unfold counted. induction labels as [| k rest IH]; simpl; [reflexivity|].
  destruct (test k); simpl; now rewrite IH.
Qed.

Lemma filter_all {A : Type} (test : A -> bool) (l : list A) :
  (forall x, In x l -> test x = true) -> filter test l = l.
Proof.
  intros Hall. apply forallb_filter_id, forallb_forall. exact Hall.
Qed.

Lemma filter_nothing {A : Type} (test : A -> bool) (l : list A) :
  (forall x, In x l -> test x = false) -> filter test l = [].
Proof.
  induction l as [| x rest IH]; simpl; intros Hall; [reflexivity|].
  rewrite (Hall x (or_introl eq_refl)). apply IH.
  intros y Hy. apply Hall. now right.
Qed.

(** When every stored value of a single-choice or rating-scale poll is
    an array-index string (such as the 1 to 5 the rating buttons post)
    and the declared options are distinct labels that are not, the
    results open with one entry per distinct stored value, holding the
    number of votes for it, and close with the declared options in
    declared order, every one of them at count 0. *)
Theorem index_votes_lead {J : JSON} (p : Poll) (rows : list string) :
  type p = "mc" \/ type p = "likert" ->
  NoDup (options p) ->
  forallb plain (options p) = true ->
  (forall v, In v rows -> is_index v = true) ->
  exists front,
    results (aggregate (Own p) rows)
    = front ++ map (fun o => Tally o (Num 0)) (options p)
    /\ Permutation front
         (map (fun v => Tally v (Num (occurrences v rows))) (distinct rows)).
Proof.
  intros Hty Hnd Hplain Hindex.
  destruct (simple_poll_unfold p rows Hty) as [_ Hresults].
  destruct (simple_counts_exact (options p) rows) as (Hexact & _ & _).
  { intros v Hv. now apply index_not_inherited, Hindex. }
  rewrite Hresults, Hexact.
  rewrite (plain_all_storable _ Hplain), (distinct_of_NoDup Hnd).
  rewrite forallb_forall in Hplain.
  assert (Hapart : forall v, In v rows -> existsb (String.eqb v) (options p) = false).
  { intros v Hv. apply Bool.not_true_iff_false. intros Hmem.
    apply mem_In in Hmem. apply Hplain, plain_not_index in Hmem.
    rewrite (Hindex v Hv) in Hmem. discriminate. }
  rewrite (filter_all (fun k => negb (existsb (String.eqb k) (options p))) rows)
    by (intros v Hv; now rewrite (Hapart v Hv)).
  assert (Hvoted : forall v, In v (distinct rows) -> is_index v = true).
  { intros v Hv. apply Hindex. now apply (proj1 (distinct_In _ _)). }
  exists (map (fun e => Tally (fst e) (snd e))
            (sort_by_index (counted (distinct rows) (fun k => occurrences k rows)))).
  split.
  - unfold tallies, entries.
    rewrite (filter_counted is_index), (filter_counted (fun k => negb (is_index k))).
    rewrite !filter_app.
    rewrite (filter_nothing is_index (options p))
      by (intros o Ho; now apply plain_not_index, Hplain).
    rewrite (filter_all is_index (distinct rows)) by exact Hvoted.
    rewrite (filter_all (fun k => negb (is_index k)) (options p))
      by (intros o Ho; now rewrite (plain_not_index _ (Hplain o Ho))).
    rewrite (filter_nothing (fun k => negb (is_index k)) (distinct rows))
      by (intros v Hv; now rewrite (Hvoted v Hv)).
    simpl. rewrite app_nil_r, map_app. f_equal.
    unfold counted. rewrite map_map. simpl.
    apply map_ext_in. intros o Ho. rewrite occurrences_absent; [reflexivity|].
    intros Hin. apply (proj2 (mem_In _ _)) in Ho.
    rewrite (Hapart o Hin) in Ho. discriminate.
  - eapply Permutation_trans; [apply Permutation_map, sort_by_index_perm|].
    unfold counted. rewrite map_map. apply Permutation_refl.
Qed.

(** The rating poll as configured: votes 3, 5, 3 cast with the page's
    buttons show up as 3: 2 and 5: 1, and the five declared labels stay
    at 0. *)
Lemma index_votes_lead_witness :
  exists poll,
    get POLLS "3" = Own poll
    /\ exists front,
         results (aggregate (json_runtime := label_arrays) (Own poll) ["3"; "5"; "3"])
         = front ++ map (fun o => Tally o (Num 0)) (options poll)
         /\ Permutation front [Tally "3" (Num 2); Tally "5" (Num 1)].
Proof.
  eexists. split; [reflexivity|].
  apply (@index_votes_lead label_arrays _ ["3"; "5"; "3"]).
  - now right.
  - repeat constructor; simpl; intuition discriminate.
  - reflexivity.
  - intros v Hv. simpl in Hv.
    repeat (destruct Hv as [<-|Hv]; [reflexivity|]). destruct Hv.
Defined.

(** ** Multi-select votes cast through the page *)

Lemma click_NoDup (selected : list string) (val : string) :
  NoDup selected -> NoDup (click selected val).
Proof.
  intros Hnd. unfold click.
  destruct (existsb (String.eqb val) selected) eqn:Hmem.
  - now apply NoDup_filter.
  - apply NoDup_app; [exact Hnd | repeat constructor; intros [] |].
    intros x Hx [<-|[]]. apply (proj2 (mem_In _ _)) in Hx. congruence.
Qed.

Lemma clicks_NoDup (clicked : list string) :
  forall selected, NoDup selected -> NoDup (fold_left click clicked selected).
Proof.
  induction clicked as [| val rest IH]; intros selected Hnd; simpl; [exact Hnd|].
  now apply IH, click_NoDup.
Qed.

Lemma to_string_labels (labels : list string) :
  map to_string (map JStr labels) = labels.
Proof. rewrite map_map. simpl. apply map_id. Qed.

Lemma occurrences_flat_map {A : Type} (pick : A -> list string) (o : string)
    (l : list A) :
  (forall a, In a l -> NoDup (pick a)) ->
  occurrences o (flat_map pick l)
  = List.length (filter (fun a => existsb (String.eqb o) (pick a)) l).
Proof.
  induction l as [| a rest IH]; intros Hnd; simpl; [reflexivity|].
  rewrite occurrences_app, IH by (intros b Hb; apply Hnd; now right).
  rewrite occurrences_NoDup by (apply Hnd; now left).
  now destruct (existsb (String.eqb o) (pick a)).
Qed.

Section MultiPage.

Context {J : JSON}.

Lemma multi_listed (p : Poll) (rows : list string) (o : string) :
  type p = "multi" -> In o (options p) -> o <> "__proto__" ->
  In (Tally o (Num (occurrences o (flat_map selected_keys rows))))
     (results (aggregate (Own p) rows)).
Proof.
  intros Hty Ho Hproto.
  destruct (multi_poll_unfold p rows Hty) as [_ Hresults].
  destruct (simple_counts_shape (options p) (flat_map selected_keys rows))
    as (extra & Heq & _ & _).
  rewrite Hresults, Heq. unfold tallies.
  apply (in_map (fun e => Tally (fst e) (snd e)) _
           (o, Num (occurrences o (flat_map selected_keys rows)))).
  apply (Permutation_in _ (Permutation_sym (entries_perm _))).
  apply in_or_app. left. unfold counted.
  apply (in_map (fun label =>
                   (label, Num (occurrences label (flat_map selected_keys rows))))).
  apply distinct_In, filter_In. split; [exact Ho | now apply storable_spec].
Qed.

Lemma page_rows_keys (ballots : list (list string)) :
  (forall clicked, In clicked ballots ->
     JSON_parse (JSON_stringify (JArr (map JStr (fold_left click clicked []))))
     = Some (JArr (map JStr (fold_left click clicked [])))) ->
  flat_map selected_keys (page_rows ballots)
  = flat_map (fun clicked => fold_left click clicked []) ballots
  /\ List.length (page_rows ballots)
     = List.length (filter (fun clicked =>
                              match fold_left click clicked [] with
                              | [] => false
                              | _ => true
                              end) ballots).
Proof.
  induction ballots as [| clicked rest IH]; intros Hround; [now split|].
  destruct IH as [IHkeys IHlen]; [intros c Hc; apply Hround; now right|].
  pose proof (Hround clicked (or_introl eq_refl)) as Hparse.
  change (page_rows (clicked :: rest))
    with (match multi_submission clicked with
          | Some v => [v]
          | None => []
          end ++ page_rows rest).
  rewrite flat_map_app, length_app, IHkeys, IHlen.
  unfold multi_submission.
  change (flat_map (fun c => fold_left click c []) (clicked :: rest))
    with (fold_left click clicked []
            ++ flat_map (fun c => fold_left click c []) rest).
  change (filter (fun c => match fold_left click c [] with
                           | [] => false
                           | _ => true
                           end) (clicked :: rest))
    with (if match fold_left click clicked [] with
             | [] => false
             | _ => true
             end
          then clicked :: filter (fun c => match fold_left click c [] with
                                           | [] => false
                                           | _ => true
                                           end) rest
          else filter (fun c => match fold_left click c [] with
                                | [] => false
                                | _ => true
                                end) rest).
  destruct (fold_left click clicked []) as [| label more] eqn:Hsel.
  - now split.
  - split; [|reflexivity].
    f_equal. cbn [flat_map]. rewrite app_nil_r.
    unfold selected_keys. rewrite Hparse. apply (to_string_labels (label :: more)).
Qed.

(** Votes cast through the multi-select page are counted per voter.
    Each voter's clicks toggle labels in a Set, and the Submit button
    posts the Set as a JSON array, or nothing while it is empty; so,
    provided the array is read back as it was written, [total] is the
    number of voters who posted, and every declared option (other than
    [__proto__]) is listed with the number of voters whose final
    selection holds it. *)
Theorem multi_page_votes (p : Poll) (ballots : list (list string)) :
  type p = "multi" ->
  (forall clicked, In clicked ballots ->
     JSON_parse (JSON_stringify (JArr (map JStr (fold_left click clicked []))))
     = Some (JArr (map JStr (fold_left click clicked [])))) ->
  let r := aggregate (Own p) (page_rows ballots) in
  total r
  = List.length (filter (fun clicked =>
                           match fold_left click clicked [] with
                           | [] => false
                           | _ => true
                           end) ballots)
  /\ (forall o, In o (options p) -> o <> "__proto__" ->
        In (Tally o
              (Num (List.length
                      (filter (fun clicked =>
                                 existsb (String.eqb o) (fold_left click clicked []))
                              ballots))))
           (results r)).
Proof.
  intros Hty Hround r. subst r.
  destruct (page_rows_keys ballots Hround) as [Hkeys Hlen].
  split.
  - destruct (multi_poll_unfold p (page_rows ballots) Hty) as [Htotal _].
    now rewrite Htotal.
  - intros o Ho Hproto.
    rewrite <- (occurrences_flat_map (fun clicked => fold_left click clicked []))
      by (intros clicked _; apply clicks_NoDup; constructor).
    rewrite <- Hkeys. now apply multi_listed.
Qed.

End MultiPage.

(** Three voters: one picks Claude and ChatGPT, one picks Claude, unpicks
    it and picks it again, one picks and unpicks ChatGPT and so posts
    nothing. *)
Lemma multi_page_votes_witness :
  exists poll,
    get POLLS "4" = Own poll
    /\ let ballots := [ ["Claude"; "ChatGPT"]; ["Claude"; "Claude"; "Claude"];
                        ["ChatGPT"; "ChatGPT"] ] in
       let r := aggregate (json_runtime := label_arrays) (Own poll)
                  (page_rows (json_runtime := label_arrays) ballots) in
       total r = 2 /\ In (Tally "Claude" (Num 2)) (results r).
Proof.
  eexists. split; [reflexivity|].
  intros ballots r. subst r.
  destruct (@multi_page_votes label_arrays
              {| question := "What AI tools have you heard of?";
                 type := "multi";
                 options := ["ChatGPT"; "Microsoft Copilot"; "Google Gemini";
                             "Claude"; "ElevenLabs"; "Midjourney / DALL-E";
                             "None of these"] |} ballots) as [Htotal Hlisted].
  - reflexivity.
  - intros clicked Hin. simpl in Hin.
    repeat (destruct Hin as [<-|Hin]; [reflexivity|]). destruct Hin.
  - split; [exact Htotal|].
    apply (Hlisted "Claude"); [simpl; tauto | discriminate].
Defined.

(** ** The order in which the store lists rows *)

Lemma occurrences_perm (x : string) (l l' : list string) :
  Permutation l l' -> occurrences x l = occurrences x l'.
Proof.
  induction 1 as [| y l l' Hperm IH | y z l | l l' l'' H1 IH1 H2 IH2].
  - reflexivity.
  - now rewrite !occurrences_cons, IH.
  - rewrite !occurrences_cons. lia.
  - now rewrite IH1.
Qed.

Lemma simple_results_perm {J : JSON} (p : Poll) (rows rows' : list string) :
  type p = "mc" \/ type p = "likert" ->
  (forall v, In v rows -> inherited v = false) ->
  Permutation rows rows' ->
  Permutation (results (aggregate (Own p) rows))
              (results (aggregate (Own p) rows')).
Proof.
  intros Hty Hplainkeys Hperm.
  assert (Hplainkeys' : forall v, In v rows' -> inherited v = false).
  { intros v Hv. apply Hplainkeys.
    now apply (Permutation_in _ (Permutation_sym Hperm)). }
  destruct (simple_poll_unfold p rows Hty) as [_ ->].
  destruct (simple_poll_unfold p rows' Hty) as [_ ->].
  destruct (simple_counts_exact (options p) rows Hplainkeys) as (-> & Hnd & _).
  destruct (simple_counts_exact (options p) rows' Hplainkeys') as (-> & Hnd' & _).
  unfold tallies.
  eapply Permutation_trans; [apply Permutation_map, entries_perm|].
  eapply Permutation_trans;
    [|apply Permutation_map, Permutation_sym, entries_perm].
  apply Permutation_map.
  rewrite (counted_ext _ (fun k => occurrences k rows) (fun k => occurrences k rows'))
    by (intros k _; now apply occurrences_perm).
  unfold counted. apply Permutation_map.
  apply NoDup_Permutation; [exact Hnd | exact Hnd' |].
  intros k. rewrite !in_app_iff, !distinct_In, !filter_In.
  split; intros [H|[H1 H2]]; auto; right; split; auto.
  - now apply (Permutation_in _ Hperm).
  - now apply (Permutation_in _ (Permutation_sym Hperm)).
Qed.

(** For a single-choice or rating-scale poll, the order in which the
    store lists the rows decides nothing but the order of the entries:
    under any two engines the same table yields the same [total] and the
    same label and count pairs, as long as no stored value is the name of
    a member of [Object.prototype]. *)
Theorem row_order_immaterial {J : JSON} (E1 E2 : Engine)
    (catalog : JsObject.t Poll) (pollId : string) (poll : Poll) (t : Table) :
  get catalog pollId = Own poll ->
  type poll = "mc" \/ type poll = "likert" ->
  (forall row, In row t -> inherited (Votes.value row) = false) ->
  total (current_aggregate (engine := E1) catalog pollId t)
  = total (current_aggregate (engine := E2) catalog pollId t)
  /\ Permutation (results (current_aggregate (engine := E1) catalog pollId t))
                 (results (current_aggregate (engine := E2) catalog pollId t)).
Proof.
  intros Hget Hty Hplainkeys.
  assert (Hperm : Permutation
                    (map Votes.value (@row_order E1 (of_poll pollId t)))
                    (map Votes.value (@row_order E2 (of_poll pollId t)))).
  { apply Permutation_map.
    eapply Permutation_trans; [apply row_order_perm|].
    apply Permutation_sym, row_order_perm. }
  unfold current_aggregate. rewrite Hget. split.
  - apply total_by_length. now apply Permutation_length.
  - apply simple_results_perm; [exact Hty | | exact Hperm].
    intros v Hv. apply in_map_iff in Hv. destruct Hv as (row & <- & Hrow).
    apply Hplainkeys.
    apply (Permutation_in _ (row_order_perm _)) in Hrow.
    unfold of_poll in Hrow. now apply filter_In in Hrow.
Qed.

Lemma row_order_immaterial_witness :
  let t := [ {| poll_id := "1"; voter_id := "zed";
                Votes.value := "What's AI?"; created_at := 1 |};
             {| poll_id := "1"; voter_id := "amy";
                Votes.value := "maybe"; created_at := 2 |};
             {| poll_id := "1"; voter_id := "bob";
                Votes.value := "nope"; created_at := 3 |} ] in
  Permutation
    (results (current_aggregate (json_runtime := label_arrays)
                (engine := rowid_engine) POLLS "1" t))
    (results (current_aggregate (json_runtime := label_arrays)
                (engine := index_engine) POLLS "1" t)).
Proof.
  intros t.
  destruct (@row_order_immaterial label_arrays rowid_engine index_engine POLLS "1"
              {| question := "Have you used AI for work in the past month?";
                 type := "mc";
                 options := ["Yes, regularly"; "Yes, a few times";
                             "No, but I'm curious"; "What's AI?"] |} t)
    as [_ Hperm].
  - reflexivity.
  - now left.
  - intros row Hrow. simpl in Hrow.
    repeat (destruct Hrow as [<-|Hrow]; [reflexivity|]). destruct Hrow.
  - exact Hperm.
Defined.
